(** * args: a GNU-style argument parser (github.com/echlebek/args)

    A shallow embedding of [args.go] and the properties of its tokenizer
    ([munchArgs], [rawArgsMap]), of its tag parser ([parseTagData]) and of
    its three destinations ([parseStruct], [fillSlice], [parseMap]).

    Go strings are byte sequences: they are modelled by [string], whose
    characters are bytes.  A Go [map[string][]string] is a [gmap string
    (list string)]; a nil slice and an empty slice are both the empty list. *)

From Stdlib Require Import ZArith Ascii.
From Stdlib Require String.
From stdpp Require Import base option list strings gmap fin_maps relations pretty.

#[local] Set Warnings "-register-all".

Local Open Scope Z_scope.
Local Open Scope nat_scope.

(** ** The pieces of Go's [strings] package and of string slicing *)

Module GoString.

(** [len(s)] *)
Definition len (s : string) : nat := String.length s.

(** [strings.HasPrefix(s, prefix)] *)
Definition HasPrefix (s prefix : string) : bool := String.prefix prefix s.

(** [s[i:j]], used by the source only with [i <= j <= len(s)] *)
Definition slice (i j : nat) (s : string) : string :=
  String.substring i (j - i) s.

(** [s[i:]], used by the source only with [i <= len(s)] *)
Definition slice_from (i : nat) (s : string) : string :=
  String.substring i (len s - i) s.

(** [strings.Split(s, ",")]: the pieces between the commas, at least one. *)
Fixpoint split_go (cur : string) (s : string) : list string :=
  match s with
  | EmptyString => [String.rev cur]
  | String c s' =>
      if Ascii.eqb c ","%char
      then String.rev cur :: split_go EmptyString s'
      else split_go (String c cur) s'
  end.
Definition SplitComma (s : string) : list string := split_go EmptyString s.

End GoString.

Import GoString.

(** ** The tokenizer *)

(** The raw flag mapping, [map[string][]string]. *)
Abbreviation RawMap := (gmap string (list string)).

(** [munchArgs]: the longest run of leading tokens without the prefix [--]. *)
Fixpoint munchArgs (args : list string) : list string :=
  match args with
  | [] => []
  | a :: rest =>
      if negb (HasPrefix a "--") then a :: munchArgs rest else []
  end.

(** [result[key] = append(result[key], vals...)]; a missing key reads as nil. *)
Definition appendVals (key : string) (vals : list string) (result : RawMap)
  : RawMap :=
  <[key := default [] (result !! key) ++ vals]> result.

(** The inner loop of the cluster branch:
    [for i := 2; i < len(a); i++ { result[a[i-1:i]] = []string{} }]. *)
Definition registerSwitches (a : string) (result : RawMap) : RawMap :=
  foldl (fun m i => <[slice (i - 1) i a := []]> m) result (seq 2 (len a - 2)).

(** One pass through the body of the [for len(args) > 0] loop of
    [rawArgsMap], on a non-empty [args].  When the first token has neither
    prefix no branch of the [if] runs, and the state is left as it was. *)
Definition rawArgsMap_body (args : list string) (result : RawMap)
  : list string * RawMap :=
  match args with
  | [] => (args, result)
  | a :: rest =>
      if HasPrefix a "--" then
        let key := slice_from 2 a in
        let vals := munchArgs rest in
        (drop (length vals) rest, appendVals key vals result)
      else if HasPrefix a "-" then
        if 2 <? len a then
          (rest, registerSwitches a result)
        else
          let key := slice_from 1 a in
          let vals := munchArgs rest in
          (drop (length vals) rest, appendVals key vals result)
      else (args, result)
  end.

(** The loop itself, run for at most [fuel] tests of its condition; [None]
    when the loop is still running after that many. *)
Fixpoint rawArgsMap_loop (fuel : nat) (args : list string) (result : RawMap)
  : option RawMap :=
  match fuel with
  | O => None
  | S fuel' =>
      match args with
      | [] => Some result
      | _ :: _ =>
          let '(args', result') := rawArgsMap_body args result in
          rawArgsMap_loop fuel' args' result'
      end
  end.

(** [rawArgsMap].  A pass that changes the state drops at least one token,
    so [S (length args)] tests are enough whenever the loop ends at all
    ([rawArgsMap_loop_complete] below); [None] stands for a loop that never
    ends.  The error result of the source is always nil and is left out. *)
Definition rawArgsMap (args : list string) : option RawMap :=
  rawArgsMap_loop (S (length args)) args ∅.


(** After [n] passes of the loop body from the initial state of
    [rawArgsMap]: the tokens still to read and the map built so far.  (A
    pass on an empty token list changes nothing.) *)
Definition rawArgsMap_state (n : nat) (tokens : list string)
  : list string * RawMap :=
  Nat.iter n (fun st => rawArgsMap_body st.1 st.2) (tokens, ∅).

(** The spec's reading of one top-level token [a] followed by [rest]: the
    flag keys it mentions, each with the values it brings.  A long flag and
    a lone short flag bring the munched tokens; each registered character of
    a bundled cluster brings none. *)
Definition spec_occurrences (a : string) (rest : list string)
  : list (string * list string) :=
  if HasPrefix a "--" then [(slice_from 2 a, munchArgs rest)]
  else if HasPrefix a "-" then
    if 2 <? len a
    then (fun i => (slice (i - 1) i a, [])) <$> seq 2 (len a - 2)
    else [(slice_from 1 a, munchArgs rest)]
  else [].



(** The spec's "values accumulate": every occurrence appends. *)
Definition spec_accumulate (occ : list (string * list string))
  (result : RawMap) : RawMap :=
  foldl (fun m kv => appendVals kv.1 kv.2 m) result occ.

(** The map holds presence-only entries only. *)
Definition only_switches (result : RawMap) : Prop :=
  forall key vals, result !! key = Some vals -> vals = [].

(** The tokens still to read are none, or start with a long flag. *)
Definition at_long_flag (args : list string) : Prop :=
  match args with
  | [] => True
  | a :: _ => HasPrefix a "--" = true
  end.

(** ** What the package takes from Go's standard library

    [strconv.ParseInt], [strconv.ParseUint], [strconv.ParseFloat] and
    [strings.ToLower] are not code of this package: they are an interface
    here.  A parser returns its value on the left, its error on the right. *)

Class StdLib := {
  float64 : Type;
  float64_zero : float64;
  NumError : Type;
  ParseInt : string -> Z -> Z -> Z + NumError;
  ParseUint : string -> Z -> Z -> Z + NumError;
  ParseFloat : string -> Z -> float64 + NumError;
  ToLower : string -> string
}.

(** ** Tag metadata *)

Record tagData := {
  Description : string;
  Required : bool;
  ShortFlag : string
}.

(** The body of the [for i := 1; ...] loop of [parseTagData]. *)
Definition tagModifier (td : tagData) (part : string) : tagData :=
  if HasPrefix part "-" && (len part =? 2) then
    {| Description := Description td; Required := Required td;
       ShortFlag := slice_from 1 part |}
  else if String.eqb part "r" then
    {| Description := Description td; Required := true;
       ShortFlag := ShortFlag td |}
  else td.

(** [parseTagData], on the value of the [args] key of the field's tag. *)
Definition parseTagData (tag : string) : tagData :=
  let td := {| Description := ""; Required := false; ShortFlag := "" |} in
  match SplitComma tag with
  | [] => td
  | p0 :: parts =>
      foldl tagModifier
        {| Description := p0; Required := false; ShortFlag := "" |} parts
  end.

(** ** Types, values and errors *)

(** [reflect.Type], as far as the package looks into it. *)
Inductive GoType :=
| TBool
| TInt | TInt8 | TInt16 | TInt32 | TInt64
| TUint | TUint8 | TUint16 | TUint32 | TUint64
| TFloat32 | TFloat64
| TString
| TSlice (elem : GoType)
| TPtr (elem : GoType)
| TMap (key elem : GoType)
| TInterface
| TStruct
| TOther.

(** [Type.Bits()]; [int] and [uint] have 64 bits on the usual targets. *)
Definition Bits (t : GoType) : Z :=
  match t with
  | TInt8 | TUint8 => 8
  | TInt16 | TUint16 => 16
  | TInt32 | TUint32 | TFloat32 => 32
  | TInt | TInt64 | TUint | TUint64 | TFloat64 => 64
  | _ => 0
  end%Z.

(** [Type.Elem()], called by the source on slices, pointers and maps only. *)
Definition Elem (t : GoType) : GoType :=
  match t with
  | TSlice e | TPtr e | TMap _ e => e
  | _ => TOther
  end.

Section Parser.
Context `{StdLib}.

(** [reflect.Value], as far as the package reads and writes it.  [VPtr None]
    is the nil pointer; [VOpaque] is any value the package never inspects. *)
Inductive Value :=
| VBool (b : bool)
| VInt (n : Z)
| VUint (n : Z)
| VFloat (x : float64)
| VString (s : string)
| VSlice (xs : list Value)
| VPtr (p : option Value)
| VEmptyStruct
| VOpaque.

(** The zero value [reflect.New] allocates. *)
Definition zero (t : GoType) : Value :=
  match t with
  | TBool => VBool false
  | TInt | TInt8 | TInt16 | TInt32 | TInt64 => VInt 0
  | TUint | TUint8 | TUint16 | TUint32 | TUint64 => VUint 0
  | TFloat32 | TFloat64 => VFloat float64_zero
  | TString => VString ""
  | TSlice _ => VSlice []
  | TPtr _ => VPtr None
  | _ => VOpaque
  end.

(** The errors of the package, one constructor per message. *)
Inductive Error :=
| ErrNotSet (name : string)         (* args: option %s specified but not set *)
| ErrMoreThanOnce (name : string)   (* args: option %s specified more than once *)
| ErrKeyMoreThanOnce (key : string) (* args: option %q specified more than once *)
| ErrNum (e : NumError)             (* an error of strconv *)
| ErrWrap (e : Error)               (* args: %s *)
| ErrBoolParam (name : string)      (* args: boolean option %s has parameter *)
| ErrRequired (name : string)       (* %s: required argument was not supplied: --%s *)
| ErrUnsupportedType (t : GoType)   (* args: unsupported type: %s *)
| ErrUnsupportedSlice (t : GoType)  (* args: unsupported slice type %s *)
| ErrInvalidMap (t elem : GoType)   (* args: invalid type for unmarshal: %s of %s *)
| ErrNonPointer (t : GoType)        (* args: non-pointer %s *)
| ErrMapKey (key : GoType)          (* args: map key type must be string, not %s *)
| ErrInvalidType (t : GoType).      (* args: invalid type for unmarshal: %s *)

(** [checkArgLen]: nil exactly when [data] has one element. *)
Definition checkArgLen (data : list string) (name : string) : option Error :=
  if length data =? 0 then Some (ErrNotSet name)
  else if 1 <? length data then Some (ErrMoreThanOnce name)
  else None.

(** [data[0]]; the source reads it only where the index is in range. *)
Definition index0 (data : list string) : string := hd "" data.

(** ** Slices *)

(** The loops of [fillSlice]: convert every token, stop at the first error. *)
Fixpoint convertAll {A : Type} (conv : string -> A + NumError)
  (args : list string) : list A + NumError :=
  match args with
  | [] => inl []
  | s :: rest =>
      match conv s with
      | inr err => inr err
      | inl n =>
          match convertAll conv rest with
          | inr err => inr err
          | inl ns => inl (n :: ns)
          end
      end
  end.

(** [fillSlice], for a destination of type [typ]: the slice that [v.Set]
    stores, or the error, in which case the destination is not written. *)
Definition fillSlice (typ : GoType) (args : list string) : Value + Error :=
  let elem := Elem typ in
  match elem with
  | TString => inl (VSlice (VString <$> args))
  | TInt | TInt8 | TInt16 | TInt32 | TInt64 =>
      match convertAll (fun s => ParseInt s 0 (Bits elem)) args with
      | inr err => inr (ErrWrap (ErrNum err))
      | inl ns => inl (VSlice (VInt <$> ns))
      end
  | TUint | TUint8 | TUint16 | TUint32 | TUint64 =>
      match convertAll (fun s => ParseUint s 0 (Bits elem)) args with
      | inr err => inr (ErrWrap (ErrNum err))
      | inl ns => inl (VSlice (VUint <$> ns))
      end
  | TFloat32 | TFloat64 =>
      match convertAll (fun s => ParseFloat s (Bits elem)) args with
      | inr err => inr (ErrWrap (ErrNum err))
      | inl ns => inl (VSlice (VFloat <$> ns))
      end
  | _ => inr (ErrUnsupportedSlice typ)
  end.

(** ** Records *)

(** [reflect.StructField]; [Tag] is the value of the tag's [args] key. *)
Record StructField := {
  Name : string;
  PkgPath : string;
  Anonymous : bool;
  Tag : string;
  Type_ : GoType
}.

(** A struct value: its fields in declaration order, each with its value. *)
Definition StructValue : Type := list (StructField * Value).

(** Lines 200-211 of [parseStruct]: the raw values of a field, by its
    lowercased name first and by [tagData.ShortFlag] otherwise. *)
Definition lookupFlag (rawData : RawMap) (name : string) (td : tagData)
  : option (list string) :=
  match rawData !! name with
  | Some data => Some data
  | None => rawData !! ShortFlag td
  end.

(** The [switch ftype.Kind()] of [parseStruct] on the slot [fval] points at,
    whose value is [cur]: the value of the slot afterwards, and the error.
    [fieldType] is [field.Type], named by the default case. *)
Definition assignField (ftype fieldType : GoType) (name : string)
  (data : list string) (cur : Value) : Value * option Error :=
  match ftype with
  | TString =>
      match checkArgLen data name with
      | Some err => (cur, Some (ErrWrap err))
      | None => (VString (index0 data), None)
      end
  | TBool =>
      if negb (length data =? 0) then (cur, Some (ErrBoolParam name))
      else (VBool true, None)
  | TInt | TInt8 | TInt16 | TInt32 | TInt64 =>
      match checkArgLen data name with
      | Some err => (cur, Some (ErrWrap err))
      | None =>
          match ParseInt (index0 data) 0 (Bits ftype) with
          | inr err => (cur, Some (ErrWrap (ErrNum err)))
          | inl n => (VInt n, None)
          end
      end
  | TUint | TUint8 | TUint16 | TUint32 | TUint64 =>
      match checkArgLen data name with
      | Some err => (cur, Some (ErrWrap err))
      | None =>
          match ParseUint (index0 data) 0 (Bits ftype) with
          | inr err => (cur, Some (ErrWrap (ErrNum err)))
          | inl n => (VUint n, None)
          end
      end
  | TFloat32 | TFloat64 =>
      match checkArgLen data name with
      | Some err => (cur, Some (ErrWrap err))
      | None =>
          match ParseFloat (index0 data) (Bits ftype) with
          | inr err => (cur, Some (ErrWrap (ErrNum err)))
          | inl x => (VFloat x, None)
          end
      end
  | TSlice _ =>
      match fillSlice ftype data with
      | inr err => (cur, Some err)
      | inl s => (s, None)
      end
  | _ => (cur, Some (ErrUnsupportedType fieldType))
  end.

(** One pass through the body of the loop of [parseStruct], for the field
    [field] holding [fval]: the value the field holds afterwards, and the
    error the pass returns, if any.  For a pointer field lines 212-216 first
    store a pointer to a new zero value, then work on what it points at. *)
Definition parseField (rawData : RawMap) (field : StructField) (fval : Value)
  : Value * option Error :=
  if negb (String.eqb (PkgPath field) "") || Anonymous field then (fval, None)
  else
    let name := ToLower (Name field) in
    let td := parseTagData (Tag field) in
    match lookupFlag rawData name td with
    | None =>
        if negb (Required td) then (fval, None)
        else (fval, Some (ErrRequired name))
    | Some data =>
        match Type_ field with
        | TPtr ftype =>
            let '(x, err) :=
              assignField ftype (Type_ field) name data (zero ftype) in
            (VPtr (Some x), err)
        | ftype => assignField ftype (Type_ field) name data fval
        end
    end.

(** The loop of [parseStruct] over the fields: it stops at the first error,
    and the fields written until then stay written. *)
Fixpoint parseFields (rawData : RawMap) (v : StructValue)
  : StructValue * option Error :=
  match v with
  | [] => ([], None)
  | (field, fval) :: rest =>
      match parseField rawData field fval with
      | (fval', Some err) => ((field, fval') :: rest, Some err)
      | (fval', None) =>
          let '(rest', err) := parseFields rawData rest in
          ((field, fval') :: rest', err)
      end
  end.

(** [parseStruct]: [None] when [rawArgsMap] never returns; otherwise the
    struct as the call leaves it, and the error returned. *)
Definition parseStruct (v : StructValue) (args : list string)
  : option (StructValue * option Error) :=
  match rawArgsMap args with
  | None => None
  | Some rawData => Some (parseFields rawData v)
  end.

(** What the field holds once its pass stored [x], and what it holds
    when the pass stored nothing: through the new pointer for a pointer
    field, directly otherwise. *)
Definition stored (field : StructField) (x : Value) : Value :=
  match Type_ field with TPtr _ => VPtr (Some x) | _ => x end.

(** ** Dictionaries *)

(** The destination [map[string]T], a map that has been made: on a nil map
    reflect's [SetMapIndex] panics, which is outside this model. *)
Abbreviation DestMap := (gmap string Value).

(** The body of the loop of [parseMap] for a [map[string]interface{}]. *)
Definition dynamicValue (value : list string) : Value :=
  match value with
  | [] => VEmptyStruct
  | [val] =>
      match ParseInt val 0 64 with
      | inl n => VInt n
      | inr _ =>
          match ParseFloat val 64 with
          | inl x => VFloat x
          | inr _ => VString val
          end
      end
  | _ => VSlice (VString <$> value)
  end.

(** The first raw value of an entry, or the empty string. *)
Definition firstValue (value : list string) : Value := VString (hd "" value).

(** The loop of [parseMap] for a [map[string]string], over the entries of
    the raw map in the order [range] yields them. *)
Fixpoint parseMapString (entries : list (string * list string))
  (v : DestMap) : DestMap * option Error :=
  match entries with
  | [] => (v, None)
  | (key, value) :: rest =>
      let v' :=
        match value with
        | [] => <[key := VString ""]> v
        | v0 :: _ => <[key := VString v0]> v
        end in
      if 1 <? length value then (v', Some (ErrKeyMoreThanOnce key))
      else parseMapString rest v'
  end.

(** The loop of [parseMap] for a [map[string]interface{}]. *)
Definition parseMapInterface (entries : list (string * list string))
  (v : DestMap) : DestMap * option Error :=
  (foldl (fun m kv => <[kv.1 := dynamicValue kv.2]> m) v entries, None).

(** The [switch elem.Kind()] of [parseMap], given the raw map's entries in
    iteration order. *)
Definition parseMapEntries (typ : GoType)
  (entries : list (string * list string)) (v : DestMap)
  : DestMap * option Error :=
  match Elem typ with
  | TString => parseMapString entries v
  | TInterface => parseMapInterface entries v
  | elem => (v, Some (ErrInvalidMap typ elem))
  end.

(** [parseMap] for a destination of type [typ].  Go leaves the order in
    which [range] visits a map open: [order] is that order, any enumeration
    of the raw map's entries.  [None] when [rawArgsMap] never returns. *)
Definition parseMap (order : RawMap -> list (string * list string))
  (typ : GoType) (v : DestMap) (args : list string)
  : option (DestMap * option Error) :=
  match rawArgsMap args with
  | None => None
  | Some rawData => Some (parseMapEntries typ (order rawData) v)
  end.

(** An iteration order [range] may follow: the entries, each once. *)
Definition range_order (order : RawMap -> list (string * list string)) : Prop :=
  forall m, order m ≡ₚ map_to_list m.

(** ** The entry point *)

(** What the [interface{}] argument of [parse] holds: a value that is not
    a pointer, or a pointer to a struct, to a slice, to a map (whose entries
    are modelled for string keys only) or to something else. *)
Inductive Data :=
| NonPointer (typ : GoType)
| ToStruct (v : StructValue)
| ToSlice (elem : GoType) (v : Value)
| ToMap (key elem : GoType) (v : DestMap)
| ToOther (typ : GoType).

(** The type [data] points to, for a pointer. *)
Definition pointee (data : Data) : GoType :=
  match data with
  | NonPointer typ => typ
  | ToStruct _ => TStruct
  | ToSlice elem _ => TSlice elem
  | ToMap key elem _ => TMap key elem
  | ToOther typ => typ
  end.

(** [getType]: the error it returns, if any. *)
Definition getType (data : Data) : option Error :=
  match data with
  | NonPointer typ => Some (ErrNonPointer typ)
  | _ =>
      match pointee data with
      | TStruct | TSlice _ => None
      | TMap TString _ => None
      | TMap key _ => Some (ErrMapKey key)
      | typ => Some (ErrInvalidType typ)
      end
  end.

(** [parse]: the destination as the call leaves it, and the error. *)
Definition parse (order : RawMap -> list (string * list string))
  (data : Data) (args : list string) : option (Data * option Error) :=
  match getType data with
  | Some err => Some (data, Some err)
  | None =>
      match data with
      | ToStruct v =>
          prod_map ToStruct id <$> parseStruct v args
      | ToSlice elem v =>
          match fillSlice (TSlice elem) args with
          | inr err => Some (data, Some err)
          | inl s => Some (ToSlice elem s, None)
          end
      | ToMap key elem v =>
          prod_map (ToMap key elem) id <$> parseMap order (TMap key elem) v args
      | _ => Some (data, Some (ErrInvalidType (pointee data)))
      end
  end.

End Parser.

Abbreviation DestMap := (gmap string Value).

(** ** A standard library for running the embedding

    A stand-in for [strconv] and [strings.ToLower] on which the definitions
    above can be evaluated.  It reads plain decimal literals only (an optional
    sign, digits without a leading zero, and for floats an optional fraction)
    and lowercases ASCII letters.  On integers its values are those of Go,
    and like Go it rejects a text without any digit.  A float is kept as its
    digits and the number of them after the point, exactly: the width is not
    looked at, so nothing is rounded to [float32] and no literal is out of
    range, which Go does otherwise.  The statements that run on it use
    floats only as literals that Go reads too. *)

Module Decimal.

Inductive Failure := Syntax | Range.

Fixpoint digits (acc : Z) (s : string) : option Z :=
  match s with
  | EmptyString => Some acc
  | String c s' =>
      match Ascii.is_nat c with
      | Some d => digits (10 * acc + Z.of_nat d)%Z s'
      | None => None
      end
  end.

Definition natural (s : string) : option Z :=
  match s with
  | EmptyString => None
  | String "0" (String _ _) => None
  | _ => digits 0 s
  end.

Definition signed (s : string) : bool * string :=
  match s with
  | String "-" s' => (true, s')
  | String "+" s' => (false, s')
  | _ => (false, s)
  end.

Definition parseInt (s : string) (base bitSize : Z) : Z + Failure :=
  let '(neg, body) := signed s in
  match natural body with
  | None => inr Syntax
  | Some n =>
      let v := (if neg then - n else n)%Z in
      if ((- 2 ^ (bitSize - 1) <=? v) && (v <? 2 ^ (bitSize - 1)))%Z
      then inl v else inr Range
  end.

Definition parseUint (s : string) (base bitSize : Z) : Z + Failure :=
  match natural s with
  | None => inr Syntax
  | Some n => if (n <? 2 ^ bitSize)%Z then inl n else inr Range
  end.

Fixpoint splitPoint (cur : string) (s : string) : string * option string :=
  match s with
  | EmptyString => (String.rev cur, None)
  | String c s' =>
      if Ascii.eqb c "."%char then (String.rev cur, Some s')
      else splitPoint (String c cur) s'
  end.

Definition parseFloat (s : string) (bitSize : Z) : (Z * nat) + Failure :=
  let '(neg, body) := signed s in
  let '(whole, frac) := splitPoint EmptyString body in
  match natural whole, frac with
  | Some n, None => inl ((if neg then - n else n)%Z, 0)
  | Some n, Some f =>
      match f with
      | EmptyString => inr Syntax
      | _ =>
          match digits n f with
          | Some m => inl ((if neg then - m else m)%Z, String.length f)
          | None => inr Syntax
          end
      end
  | None, _ => inr Syntax
  end.

Definition lowerByte (c : ascii) : ascii :=
  let n := nat_of_ascii c in
  if (65 <=? n) && (n <=? 90) then ascii_of_nat (n + 32) else c.

Fixpoint toLower (s : string) : string :=
  match s with
  | EmptyString => EmptyString
  | String c s' => String (lowerByte c) (toLower s')
  end.

End Decimal.

#[local] Instance decimalLib : StdLib := {|
  float64 := Z * nat;
  float64_zero := (0%Z, 0);
  NumError := Decimal.Failure;
  ParseInt := Decimal.parseInt;
  ParseUint := Decimal.parseUint;
  ParseFloat := Decimal.parseFloat;
  ToLower := Decimal.toLower
|}.

(** [range] in the order of [map_to_list]. *)
Definition listOrder (m : RawMap) : list (string * list string) :=
  map_to_list m.

(** An exported field that is not embedded. *)
Definition exportedField (name tag : string) (typ : GoType) : StructField :=
  {| Name := name; PkgPath := ""; Anonymous := false; Tag := tag;
     Type_ := typ |}.

(** The kinds the [switch] of [parseStruct] groups in one case. *)
Definition intTypes : list GoType := [TInt; TInt8; TInt16; TInt32; TInt64].
Definition uintTypes : list GoType :=
  [TUint; TUint8; TUint16; TUint32; TUint64].
Definition floatTypes : list GoType := [TFloat32; TFloat64].
Definition scalarTypes : list GoType :=
  TString :: intTypes ++ uintTypes ++ floatTypes.

(** Fields of the struct [Test] of the package's tests and of the struct
    [Args] of its example program, with their tags. *)
Definition Int8_field : StructField :=
  exportedField "Int8" "this is an int,r,3" TInt8.
Definition Int8ptr_field : StructField :=
  exportedField "Int8ptr" "foo bar" (TPtr TInt8).
Definition String_field : StructField := exportedField "String" "" TString.
Definition Stringptr_field : StructField :=
  exportedField "Stringptr" "" (TPtr TString).
Definition Bool_field : StructField := exportedField "Bool" "a switch,-b" TBool.
Definition Foo_field : StructField :=
  exportedField "Foo" "this is a foo,-f" TInt.
Definition Bar_field : StructField :=
  exportedField "Bar" "this is a bar,r" TFloat32.
Definition Baz_field : StructField := exportedField "Baz" "a baz!,r" TString.

(** ** Shapes of command lines

    The tokenizer tells a token apart by its prefix and its length; the
    names below are those of the three branches of [rawArgsMap]. *)

(** The token takes the cluster branch: [-] but not [--], longer than 2. *)
Definition isCluster (a : string) : bool :=
  negb (HasPrefix a "--") && HasPrefix a "-" && (2 <? len a).

(** The token takes a munching branch: a long flag or a lone short flag. *)
Definition isMunchingFlag (a : string) : bool :=
  HasPrefix a "--" || (HasPrefix a "-" && negb (2 <? len a)).

(** The key of a munching flag: [args[0][2:]] or [args[0][1:]]. *)
Definition flagKey (a : string) : string :=
  if HasPrefix a "--" then slice_from 2 a else slice_from 1 a.

(** The tokens after the leading clusters. *)
Fixpoint dropClusters (args : list string) : list string :=
  match args with
  | [] => []
  | a :: rest => if isCluster a then dropClusters rest else args
  end.

(** Two raw maps merged key by key, the lists of the first in front. *)
Definition mergeRaw (m1 m2 : RawMap) : RawMap :=
  union_with (fun l1 l2 => Some (l1 ++ l2)) m1 m2.

(** The test of [parseTagData] for a short-flag segment:
    [strings.HasPrefix(parts[i], "-") && len(parts[i]) == 2]. *)
Definition isAliasSegment (p : string) : bool :=
  HasPrefix p "-" && (len p =? 2).

(** ** Usage

    [fmt.Fprint] and [fmt.Fprintf] format their arguments and hand the text
    to the writer in one [Write].  The writer and the two verbs whose output
    depends on a value are an interface: [Write] gives the writer as the
    call leaves it and the error, [FormatQ] is [%q] and [FormatV] is [%v]. *)

Class Printer `{StdLib} := {
  Writer : Type;
  WriteError : Type;
  Write : Writer -> string -> Writer * option WriteError;
  FormatQ : Value -> string;
  FormatV : Value -> string
}.

Definition tab : string := String (ascii_of_nat 9) "".
Definition newline : string := String (ascii_of_nat 10) "".

Section UsageText.
Context `{Printer}.

(** The errors of [Usage]: its own, and those of the writer. *)
Inductive UsageError :=
| ErrUsageKind (typ : GoType)  (* can only print usage with struct, not %s *)
| ErrWrite (e : WriteError).

(** [usageForField]: the writer afterwards, and the error returned. *)
Definition usageForField (w : Writer) (field : StructField) (fieldVal : Value)
  : Writer * option WriteError :=
  let td := parseTagData (Tag field) in
  let '(w1, err) :=
    if negb (String.eqb (ShortFlag td) "")
    then Write w (" -" +:+ ShortFlag td +:+ "," +:+ tab)
    else Write w (" " +:+ tab) in
  match err with
  | Some e => (w1, Some e)
  | None =>
      match Type_ field with
      | TPtr _ =>
          Write w1 ("--" +:+ ToLower (Name field) +:+ tab +:+ tab
                    +:+ Description td +:+ newline)
      | ftype =>
          let defaultValue :=
            match ftype with
            | TString => FormatQ fieldVal
            | _ => FormatV fieldVal
            end in
          Write w1 ("--" +:+ ToLower (Name field) +:+ tab +:+ "(default: "
                    +:+ defaultValue +:+ ")" +:+ tab +:+ Description td
                    +:+ newline)
      end
  end.

(** The loop of [Usage] over the fields. *)
Fixpoint usageFields (w : Writer) (v : StructValue)
  : Writer * option WriteError :=
  match v with
  | [] => (w, None)
  | (field, fieldVal) :: rest =>
      if String.eqb (PkgPath field) "" then
        match usageForField w field fieldVal with
        | (w', Some e) => (w', Some e)
        | (w', None) => usageFields w' rest
        end
      else usageFields w rest
  end.

(** What the [interface{}] argument of [Usage] holds: a struct, or a value
    of another type. *)
Inductive UsageArg :=
| UStruct (v : StructValue)
| UOther (typ : GoType).

(** [Usage] *)
Definition Usage (w : Writer) (strukt : UsageArg)
  : Writer * option UsageError :=
  match strukt with
  | UOther typ => (w, Some (ErrUsageKind typ))
  | UStruct v =>
      match Write w ("usage:" +:+ newline) with
      | (w', Some e) => (w', Some (ErrWrite e))
      | (w', None) =>
          let '(w'', err) := usageFields w' v in (w'', ErrWrite <$> err)
      end
  end.

(** The writer [w'] is [w] after some calls of [Write], of which none but
    possibly the last returned an error: the error [err]. *)
Inductive written : Writer -> Writer -> option WriteError -> Prop :=
| written_nothing w : written w w None
| written_more w s w1 w' err :
    Write w s = (w1, None) -> written w1 w' err -> written w w' err
| written_failed w s w' e :
    Write w s = (w', Some e) -> written w w' (Some e).

End UsageText.

(** [Parse]: the arguments of the process but the first, the program's
    name.  (With no argument at all the slice expression panics.) *)
Definition Parse `{StdLib} (order : RawMap -> list (string * list string))
  (osArgs : list string) (strukt : Data) : option (Data * option Error) :=
  parse order strukt (drop 1 osArgs).

(** A printer for running [Usage]: the writer is the text written so far
    and never fails; [%q] puts a string without special characters between
    double quotes; [%v] prints integers in decimal, booleans and strings as
    Go does, and gives the empty text for every other value (floats,
    pointers, slices), which Go does not. *)
Definition quote : string := String (ascii_of_nat 34) "".

Definition decimalFormatV (x : @Value decimalLib) : string :=
  match x with
  | VInt n | VUint n => pretty n
  | VBool true => "true"
  | VBool false => "false"
  | VString s => s
  | _ => ""
  end.

Definition decimalFormatQ (x : @Value decimalLib) : string :=
  match x with
  | VString s => quote +:+ s +:+ quote
  | _ => ""
  end.

#[local] Instance bufferPrinter : @Printer decimalLib := {|
  Writer := string;
  WriteError := Empty_set;
  Write := fun w s => (w +:+ s, None);
  FormatQ := decimalFormatQ;
  FormatV := decimalFormatV
|}.

(** The struct [UsageTest] of the package's tests. *)
Definition Salad_field : StructField :=
  exportedField "Salad" "type of salad to eat,-s" TString.
Definition Pie_field : StructField :=
  exportedField "Pie" "number of pies to eat,-p" TInt.
Definition Nachos_field : StructField :=
  exportedField "Nachos" "nacho quotient" (TPtr TFloat32).

(** The unexported field of the struct [Test]. *)
Definition unexported_field : StructField :=
  {| Name := "unexported"; PkgPath := "args"; Anonymous := false; Tag := "";
     Type_ := TInt |}.

(** * Properties *)

(** The members of [scalarTypes] and of its parts, one case each. *)
Ltac scalar_cases Ht :=
  unfold scalarTypes, intTypes, uintTypes, floatTypes in Ht;
  cbn [app] in Ht;
  repeat (apply elem_of_cons in Ht as [->|Ht]);
  try (by apply elem_of_nil in Ht).


(** ** Strings *)

Lemma substring_all (s : string) : String.substring 0 (String.length s) s = s.
Proof. induction s as [|c s IH]; simpl; [done | by rewrite IH]. Qed.

Lemma slice_from_append (p s : string) :
  slice_from (String.length p) (p +:+ s) = s.
Proof.
  unfold slice_from, len.
  induction p as [|c p IH]; simpl.
  - rewrite Nat.sub_0_r. apply substring_all.
  - exact IH.
Qed.

Lemma HasPrefix_append (p s : string) : HasPrefix (p +:+ s) p = true.
Proof.
  unfold HasPrefix. induction p as [|c p IH]; simpl.
  - by destruct s.
  - destruct (ascii_dec c c); [exact IH | done].
Qed.

(** ** The tokenizer *)

Section Tokenizer.
Implicit Types (args rest tokens : list string) (result : RawMap).

Lemma munchArgs_all (vs : list string) :
  Forall (fun v => HasPrefix v "--" = false) vs -> munchArgs vs = vs.
Proof.
  induction 1 as [|v vs Hv _ IH]; simpl; [done|].
  by rewrite Hv, IH.
Qed.

Lemma munchArgs_length args : length (munchArgs args) <= length args.
Proof.
  induction args as [|a rest IH]; simpl; [lia|].
  destruct (HasPrefix a "--"); simpl; lia.
Qed.

(** Munching stops at the end of the tokens or in front of a long flag. *)
Lemma munchArgs_stops args :
  match drop (length (munchArgs args)) args with
  | [] => True
  | a :: _ => HasPrefix a "--" = true
  end.
Proof.
  induction args as [|a rest IH]; simpl; [done|].
  destruct (HasPrefix a "--") eqn:Ha; simpl; [done | exact IH].
Qed.

(** A pass either leaves the state as it is or drops a token. *)
Lemma rawArgsMap_body_length args result :
  rawArgsMap_body args result = (args, result) \/
  length (rawArgsMap_body args result).1 < length args.
Proof.
  destruct args as [|a rest]; [by left|]. simpl.
  destruct (HasPrefix a "--"); [right|destruct (HasPrefix a "-"); [right|by left]].
  - simpl. rewrite length_drop. lia.
  - destruct (2 <? len a); simpl; [lia|]. rewrite length_drop. lia.
Qed.

Lemma rawArgsMap_loop_cons fuel a rest result :
  rawArgsMap_loop (S fuel) (a :: rest) result =
  rawArgsMap_loop fuel (rawArgsMap_body (a :: rest) result).1
    (rawArgsMap_body (a :: rest) result).2.
Proof.
  cbn [rawArgsMap_loop]. by destruct (rawArgsMap_body (a :: rest) result).
Qed.

Lemma rawArgsMap_loop_mono fuel fuel' args result m :
  rawArgsMap_loop fuel args result = Some m -> fuel <= fuel' ->
  rawArgsMap_loop fuel' args result = Some m.
Proof.
  revert fuel' args result.
  induction fuel as [|fuel IH]; intros fuel' args result Hrun Hle; [done|].
  destruct fuel' as [|fuel']; [lia|].
  destruct args as [|a rest]; [done|].
  rewrite rawArgsMap_loop_cons in *. apply IH; [done | lia].
Qed.

(** If the loop ends at all, it ends within [S (length args)] tests. *)
Lemma rawArgsMap_loop_complete fuel args result m :
  rawArgsMap_loop fuel args result = Some m ->
  rawArgsMap_loop (S (length args)) args result = Some m.
Proof.
  revert args result.
  induction fuel as [|fuel IH]; intros args result Hrun; [done|].
  destruct args as [|a rest]; [done|].
  rewrite rawArgsMap_loop_cons in Hrun.
  destruct (rawArgsMap_body_length (a :: rest) result) as [Hsame|Hless].
  - apply IH. by rewrite Hsame in Hrun.
  - rewrite rawArgsMap_loop_cons. apply IH in Hrun.
    eapply rawArgsMap_loop_mono; [exact Hrun | lia].
Qed.

(** [rawArgsMap] is the loop: it has a result exactly when some number of
    tests reaches the end of the loop, and then it is that result. *)
Lemma rawArgsMap_spec args m :
  rawArgsMap args = Some m <-> exists fuel, rawArgsMap_loop fuel args ∅ = Some m.
Proof.
  split; [by exists (S (length args))|].
  intros [fuel Hrun]. by eapply rawArgsMap_loop_complete.
Qed.

(** A first token with neither prefix is never consumed. *)
Lemma rawArgsMap_loop_bare fuel a rest result :
  HasPrefix a "-" = false ->
  rawArgsMap_loop fuel (a :: rest) result = None.
Proof.
  intros Ha.
  assert (HasPrefix a "--" = false) as Ha2.
  { unfold HasPrefix in *. destruct a as [|c a]; [done|].
    cbn [String.prefix] in *.
    destruct (ascii_dec "-" c); [by destruct a | done]. }
  induction fuel as [|fuel IH]; [done|].
  rewrite rawArgsMap_loop_cons. cbn [rawArgsMap_body].
  by rewrite Ha2, Ha.
Qed.

Lemma only_switches_insert key result :
  only_switches result -> only_switches (<[key := []]> result).
Proof.
  intros Hres k vals. rewrite lookup_insert.
  case_decide; [congruence | apply Hres].
Qed.

Lemma appendVals_switch key result :
  only_switches result -> appendVals key [] result = <[key := []]> result.
Proof.
  intros Hres. unfold appendVals.
  destruct (result !! key) as [vals|] eqn:Hkey; [|done].
  by rewrite (Hres _ _ Hkey).
Qed.

Lemma register_accumulate (keyOf : nat -> string) (l : list nat) result :
  only_switches result ->
  foldl (fun m i => <[keyOf i := []]> m) result l =
  spec_accumulate ((fun i => (keyOf i, [])) <$> l) result
  /\ only_switches (foldl (fun m i => <[keyOf i := []]> m) result l).
Proof.
  revert result. induction l as [|i l IH]; intros result Hres; [done|].
  cbn [foldl fmap list_fmap spec_accumulate fst snd].
  rewrite appendVals_switch by done.
  apply IH, only_switches_insert, Hres.
Qed.

(** Once a flag has munched, every later pass starts at a long flag: the
    cluster branch runs only on a map that clusters alone have built. *)
Lemma rawArgsMap_state_inv n tokens :
  only_switches (rawArgsMap_state n tokens).2 \/
  at_long_flag (rawArgsMap_state n tokens).1.
Proof.
  induction n as [|n IH]; [by left|].
  unfold rawArgsMap_state in *. rewrite Nat.iter_succ.
  destruct (Nat.iter n _ _) as [args result]. cbn [fst snd] in *.
  destruct args as [|a rest]; [exact IH|]. cbn [rawArgsMap_body].
  destruct (HasPrefix a "--") eqn:Hlong.
  { right. apply munchArgs_stops. }
  destruct (HasPrefix a "-"); [|exact IH].
  destruct (2 <? len a); cbn [fst snd].
  - left. destruct IH as [Hres|Hhead]; [|simpl in Hhead; congruence].
    by apply (register_accumulate (fun i => slice (i - 1) i a)).
  - right. apply munchArgs_stops.
Qed.

Lemma appendVals_extends key vals result k old :
  result !! k = Some old ->
  exists more, appendVals key vals result !! k = Some (old ++ more).
Proof.
  intros Hk. unfold appendVals. rewrite lookup_insert. case_decide as Heq.
  - subst. rewrite Hk. by exists vals.
  - exists []. by rewrite app_nil_r.
Qed.

Lemma spec_accumulate_extends occ result k old :
  result !! k = Some old ->
  exists more, spec_accumulate occ result !! k = Some (old ++ more).
Proof.
  revert result old. induction occ as [|[key vals] occ IH]; intros result old Hk.
  - exists []. by rewrite app_nil_r.
  - destruct (appendVals_extends key vals _ _ _ Hk) as [more1 H1].
    destruct (IH _ _ H1) as [more2 H2].
    exists (more1 ++ more2). by rewrite app_assoc.
Qed.

Lemma appendVals_empty key vals : appendVals key vals ∅ = {[key := vals]}.
Proof. unfold appendVals. by rewrite lookup_empty, insert_empty. Qed.

(** C1 (as the code runs): a first token with neither flag marker is never
    skipped.  No branch of the loop body consumes it, so the loop of
    [rawArgsMap] is still running after any number of passes, and
    [rawArgsMap] has no result on the token list [foo]. *)
Theorem rawArgsMap_bare_token_never_returns :
  (forall fuel result, rawArgsMap_loop fuel ["foo"] result = None)
  /\ (forall fuel, rawArgsMap_loop fuel ["-ab"; "foo"] ∅ = None)
  /\ rawArgsMap ["foo"] = None.
Proof.
  split; [|split].
  - intros fuel result. by apply rawArgsMap_loop_bare.
  - intros [|fuel]; [done|]. rewrite rawArgsMap_loop_cons.
    by apply rawArgsMap_loop_bare.
  - by vm_compute.
Qed.

(** C2 (as the code runs): on the cluster [-ab] the tokenizer registers
    [a] with no values and nothing else: the last character [b] gets no
    entry, whereas the lone short flag [-b] does, and munches. *)
Theorem rawArgsMap_cluster_drops_last_switch :
  rawArgsMap ["-ab"] = Some {["a" := []]}
  /\ ({["a" := []]} : RawMap) !! "b" = None
  /\ rawArgsMap ["-b"; "v"] = Some {["b" := ["v"]]}.
Proof. by vm_compute. Qed.

(** In every pass of the tokenizer's loop, whatever the token list and
    however many passes came before, each flag key the token at hand
    mentions has its values appended to the list the key already has, and
    every list already in the map is kept as a prefix of the new one. *)
Lemma rawArgsMap_pass_accumulates tokens n a rest result :
  rawArgsMap_state n tokens = (a :: rest, result) ->
  (rawArgsMap_body (a :: rest) result).2 =
    spec_accumulate (spec_occurrences a rest) result
  /\ forall key vals, result !! key = Some vals ->
       exists more,
         (rawArgsMap_body (a :: rest) result).2 !! key = Some (vals ++ more).
Proof.
  intros Hstate.
  assert ((rawArgsMap_body (a :: rest) result).2 =
            spec_accumulate (spec_occurrences a rest) result) as Hbody.
  { pose proof (rawArgsMap_state_inv n tokens) as Hinv.
    rewrite Hstate in Hinv. cbn [fst snd] in Hinv.
    unfold spec_occurrences. cbn [rawArgsMap_body].
    destruct (HasPrefix a "--") eqn:Hlong; [done|].
    destruct (HasPrefix a "-"); [|done].
    destruct (2 <? len a); [|done].
    destruct Hinv as [Hres|Hhead]; [|simpl in Hhead; congruence].
    by apply (register_accumulate (fun i => slice (i - 1) i a)). }
  split; [exact Hbody|].
  intros key vals Hkey. rewrite Hbody.
  by apply spec_accumulate_extends.
Qed.







(** C4: on a long flag [--k] followed by tokens none of which begins with
    [--], the tokenizer returns the map with the single key [k], bound to
    all these tokens in order; a token such as [-x] among them is a value
    of [k] like any other. *)
Theorem rawArgsMap_long_flag (k : string) (vs : list string) :
  Forall (fun v => HasPrefix v "--" = false) vs ->
  rawArgsMap (("--" +:+ k) :: vs) = Some {[k := vs]}.
Proof.
  intros Hvs. unfold rawArgsMap. rewrite rawArgsMap_loop_cons.
  cbn [rawArgsMap_body]. rewrite HasPrefix_append. cbn [fst snd].
  change 2 with (String.length "--") at 1. rewrite slice_from_append.
  rewrite (munchArgs_all _ Hvs), drop_all, appendVals_empty.
  done.
Qed.

Lemma rawArgsMap_long_flag_witness :
  rawArgsMap ["--k"; "v1"; "-x"; "v3"] = Some {["k" := ["v1"; "-x"; "v3"]]}.
Proof.
  apply (rawArgsMap_long_flag "k" ["v1"; "-x"; "v3"]).
  repeat constructor.
Defined.

End Tokenizer.

(** ** Records *)

Section Records.
Context `{StdLib}.
Implicit Types (rawData : RawMap) (field : StructField) (fval : Value).

Lemma parseFields_app rawData (before rest : StructValue) :
  parseFields rawData (before ++ rest) =
  match parseFields rawData before with
  | (before', Some err) => (before' ++ rest, Some err)
  | (before', None) =>
      let '(rest', err) := parseFields rawData rest in (before' ++ rest', err)
  end.
Proof.
  induction before as [|[field fval] before IH]; cbn [app parseFields].
  - by destruct (parseFields rawData rest).
  - destruct (parseField rawData field fval) as [fval' [err|]]; [done|].
    rewrite IH.
    destruct (parseFields rawData before) as [before' [err|]]; [done|].
    by destruct (parseFields rawData rest).
Qed.

Lemma parseFields_cons_error rawData field fval (rest : StructValue) fval' err :
  parseField rawData field fval = (fval', Some err) ->
  parseFields rawData ((field, fval) :: rest) = ((field, fval') :: rest, Some err).
Proof. intros Hf. cbn [parseFields]. by rewrite Hf. Qed.

(** A failing [switch] leaves the slot as it was. *)
Lemma assignField_error ftype fieldType name data cur err :
  (assignField ftype fieldType name data cur).2 = Some err ->
  (assignField ftype fieldType name data cur).1 = cur.
Proof.
  unfold assignField.
  destruct ftype; try done;
    repeat (match goal with
            | |- context [match ?x with _ => _ end] => destruct x
            end; try done).
Qed.

(** The field as exported and not embedded, with its raw values found. *)
Lemma parseField_found rawData field fval data :
  PkgPath field = "" -> Anonymous field = false ->
  lookupFlag rawData (ToLower (Name field)) (parseTagData (Tag field))
    = Some data ->
  parseField rawData field fval =
  match Type_ field with
  | TPtr ftype =>
      let '(x, err) :=
        assignField ftype (Type_ field) (ToLower (Name field)) data
          (zero ftype) in
      (VPtr (Some x), err)
  | ftype => assignField ftype (Type_ field) (ToLower (Name field)) data fval
  end.
Proof.
  intros Hpkg Hanon Hfound. unfold parseField.
  by rewrite Hpkg, Hanon, Hfound.
Qed.

(** A field whose raw values are not found, by name or by [ShortFlag]. *)
Lemma parseField_not_found rawData field fval :
  PkgPath field = "" -> Anonymous field = false ->
  lookupFlag rawData (ToLower (Name field)) (parseTagData (Tag field)) = None ->
  parseField rawData field fval =
  (fval, if Required (parseTagData (Tag field))
         then Some (ErrRequired (ToLower (Name field))) else None).
Proof.
  intros Hpkg Hanon Hnone. unfold parseField.
  rewrite Hpkg, Hanon, Hnone. cbn.
  by destruct (Required _).
Qed.

(** C6 (amended): for a pointer field whose flag is found, the pointer is
    set to a new zero value before the raw values are coerced.  When the
    coercion fails, [parseStruct] returns that error and leaves the field
    pointing to the zero value of its element type: allocated, not nil.
    The fields before it are as their own passes left them, the fields after
    it are untouched. *)
Theorem parseStruct_nullable_failure_allocates
  args rawData (before before' after : StructValue) field fval t data err :
  rawArgsMap args = Some rawData ->
  parseFields rawData before = (before', None) ->
  PkgPath field = "" -> Anonymous field = false ->
  Type_ field = TPtr t ->
  lookupFlag rawData (ToLower (Name field)) (parseTagData (Tag field))
    = Some data ->
  (assignField t (TPtr t) (ToLower (Name field)) data (zero t)).2 = Some err ->
  parseStruct (before ++ (field, fval) :: after) args =
  Some (before' ++ (field, VPtr (Some (zero t))) :: after, Some err).
Proof.
  intros Hraw Hbefore Hpkg Hanon Htype Hfound Herr.
  unfold parseStruct. rewrite Hraw, parseFields_app, Hbefore.
  pose proof (assignField_error _ _ _ _ _ _ Herr) as Hcur.
  rewrite (parseFields_cons_error _ _ _ _ (VPtr (Some (zero t))) err); [done|].
  rewrite (parseField_found _ _ _ data) by done. rewrite Htype.
  destruct (assignField t (TPtr t) _ data (zero t)) as [x e].
  cbn [fst snd] in *. by subst.
Qed.


(** A pass that finds no raw values for its field, or skips the field,
    leaves the field as it was. *)
Lemma parseField_frame rawData field fval :
  lookupFlag rawData (ToLower (Name field)) (parseTagData (Tag field)) = None ->
  (parseField rawData field fval).1 = fval.
Proof.
  intros Hnone. unfold parseField. rewrite Hnone.
  destruct (negb _ || _); [done|]. by destruct (negb _).
Qed.

(** After a [parseStruct] without error, a field for which the raw map has
    neither the lowercased name nor the [ShortFlag] string of its tag (the
    empty string when the tag gives no alias) holds what it held before. *)
Lemma parseFields_frame rawData (v v' : StructValue) (i : nat) field fval :
  parseFields rawData v = (v', None) ->
  v !! i = Some (field, fval) ->
  lookupFlag rawData (ToLower (Name field)) (parseTagData (Tag field)) = None ->
  v' !! i = Some (field, fval).
Proof.
  revert v' i. induction v as [|[f x] v IH]; intros v' i Hrun Hi Hnone; [done|].
  cbn [parseFields] in Hrun.
  destruct (parseField rawData f x) as [x' [err|]] eqn:Hf; [done|].
  destruct (parseFields rawData v) as [rest' err] eqn:Hrest.
  injection Hrun as <- ->.
  destruct i as [|i]; cbn in *.
  - injection Hi as -> ->.
    pose proof (parseField_frame _ _ fval Hnone) as Hsame.
    rewrite Hf in Hsame. cbn in Hsame. by subst.
  - by apply IH.
Qed.

(** A required exported field with neither key in the raw map stops
    [parseStruct] with the required-argument error naming it, once the
    fields before it have been processed without error. *)
Lemma parseStruct_required_not_found
  args rawData (before before' after : StructValue) field fval :
  rawArgsMap args = Some rawData ->
  parseFields rawData before = (before', None) ->
  PkgPath field = "" -> Anonymous field = false ->
  Required (parseTagData (Tag field)) = true ->
  lookupFlag rawData (ToLower (Name field)) (parseTagData (Tag field)) = None ->
  parseStruct (before ++ (field, fval) :: after) args =
  Some (before' ++ (field, fval) :: after,
        Some (ErrRequired (ToLower (Name field)))).
Proof.
  intros Hraw Hbefore Hpkg Hanon Hreq Hnone.
  unfold parseStruct. rewrite Hraw, parseFields_app, Hbefore.
  rewrite (parseFields_cons_error _ _ _ _ fval
             (ErrRequired (ToLower (Name field)))); [done|].
  rewrite parseField_not_found by done. by rewrite Hreq.
Qed.

End Records.

(** ** Dictionaries *)

Section Dictionaries.
Context `{StdLib}.
Implicit Types (rawData : RawMap) (v : DestMap)
  (entries : list (string * list string)).

(** Assigning one value per entry, for any way [f] of making the value. *)
Lemma foldl_insert_other (f : list string -> Value) entries v k :
  k ∉ entries.*1 ->
  foldl (fun m kv => <[kv.1 := f kv.2]> m) v entries !! k = v !! k.
Proof.
  revert v. induction entries as [|[k0 d0] entries IH]; intros v Hk; [done|].
  cbn in *. apply not_elem_of_cons in Hk as [Hne Hk].
  rewrite IH by done. by rewrite lookup_insert_ne.
Qed.

Lemma foldl_insert_entry (f : list string -> Value) entries v k value :
  NoDup entries.*1 -> (k, value) ∈ entries ->
  foldl (fun m kv => <[kv.1 := f kv.2]> m) v entries !! k = Some (f value).
Proof.
  revert v. induction entries as [|[k0 d0] entries IH]; intros v Hnodup Hin.
  - by apply elem_of_nil in Hin.
  - cbn in *. apply NoDup_cons in Hnodup as [Hk0 Hnodup].
    apply elem_of_cons in Hin as [Heq|Hin].
    + injection Heq as -> ->.
      rewrite foldl_insert_other by done. apply lookup_insert_eq.
    + by apply IH.
Qed.

Lemma range_order_NoDup order rawData :
  range_order order -> NoDup (order rawData).*1.
Proof.
  intros Horder. rewrite (Horder rawData). apply NoDup_fst_map_to_list.
Qed.

Lemma range_order_elem order rawData k value :
  range_order order -> (k, value) ∈ order rawData <-> rawData !! k = Some value.
Proof.
  intros Horder. rewrite (Horder rawData). apply elem_of_map_to_list.
Qed.

(** C8: for a [map[string]interface{}] destination, whenever the tokenizer
    returns, [parseMap] returns no error, whatever the order of iteration,
    and binds every key of the raw map: to the empty struct when it has no
    raw value; when it has exactly one, to the 64-bit integer it parses as,
    else to the 64-bit float it parses as, else to the string itself; and to
    the whole list of raw strings when it has more than one.  The other keys
    of the destination keep their values. *)
Theorem parseMap_interface order key_ v args rawData :
  range_order order ->
  rawArgsMap args = Some rawData ->
  exists v',
    parseMap order (TMap key_ TInterface) v args = Some (v', None)
    /\ (forall key value, rawData !! key = Some value ->
         (value = [] -> v' !! key = Some VEmptyStruct)
         /\ (forall val, value = [val] ->
              v' !! key = Some
                match ParseInt val 0 64 with
                | inl n => VInt n
                | inr _ =>
                    match ParseFloat val 64 with
                    | inl x => VFloat x
                    | inr _ => VString val
                    end
                end)
         /\ (1 < length value ->
              v' !! key = Some (VSlice (VString <$> value))))
    /\ (forall key, rawData !! key = None -> v' !! key = v !! key).
Proof.
  intros Horder Hraw. unfold parseMap, parseMapEntries, parseMapInterface.
  rewrite Hraw. cbn [Elem]. eexists. split; [done|]. split.
  - intros key value Hkey.
    apply (range_order_elem order) in Hkey; [|done].
    rewrite (foldl_insert_entry dynamicValue _ _ key value);
      [|by apply range_order_NoDup|done].
    split_and!.
    + by intros ->.
    + by intros val ->.
    + intros Hlen. by destruct value as [|v0 [|v1 value]]; [simpl in Hlen; lia..|].
  - intros key Hkey. apply foldl_insert_other.
    intros [[k value] [Hk Hin]]%list_elem_of_fmap. cbn in Hk. subst k.
    apply (range_order_elem order) in Hin; [|done]. congruence.
Qed.

(** [parseMapString] fails at the first entry with two raw values or more;
    by then it has assigned that entry and all entries before it. *)
Lemma parseMapString_error entries v v' err :
  parseMapString entries v = (v', Some err) ->
  exists before key s0 s1 more after,
    entries = before ++ (key, s0 :: s1 :: more) :: after
    /\ err = ErrKeyMoreThanOnce key
    /\ v' = <[key := VString s0]>
              (foldl (fun m kv => <[kv.1 := firstValue kv.2]> m) v before).
Proof.
  revert v. induction entries as [|[key value] entries IH]; intros v Hrun; [done|].
  cbn [parseMapString] in Hrun.
  destruct value as [|s0 [|s1 more]]; cbn in Hrun.
  - destruct (IH _ Hrun) as (before & k & w0 & w1 & more & after & -> & -> & ->).
    by exists ((key, []) :: before), k, w0, w1, more, after.
  - destruct (IH _ Hrun) as (before & k & w0 & w1 & more & after & -> & -> & ->).
    by exists ((key, [s0]) :: before), k, w0, w1, more, after.
  - injection Hrun as <- <-.
    by exists [], key, s0, s1, more, entries.
Qed.

(** C10 (amended): for a [map[string]string] destination, when
    [parseMap] returns an error it is the "specified more than once" error for a key with two raw
    values or more, and the destination has been written by then: that key
    is bound to its first raw value, the keys that [range] visited before it
    are bound to their first raw value or to the empty string, and the keys
    visited neither before nor then are as they were.  So the destination is
    changed unless the key was already bound to that very value. *)
Theorem parseMap_string_error_after_assignment order key_ v args v' err :
  range_order order ->
  parseMap order (TMap key_ TString) v args = Some (v', Some err) ->
  exists rawData before key s0 s1 more after,
    rawArgsMap args = Some rawData
    /\ order rawData = before ++ (key, s0 :: s1 :: more) :: after
    /\ rawData !! key = Some (s0 :: s1 :: more)
    /\ err = ErrKeyMoreThanOnce key
    /\ v' !! key = Some (VString s0)
    /\ (forall k value, (k, value) ∈ before ->
         v' !! k = Some (VString (hd "" value)))
    /\ (forall k, k <> key -> k ∉ before.*1 -> v' !! k = v !! k)
    /\ (v !! key <> Some (VString s0) -> v' <> v).
Proof.
  intros Horder Hrun. unfold parseMap, parseMapEntries in Hrun.
  destruct (rawArgsMap args) as [rawData|] eqn:Hraw; [|done].
  cbn [Elem] in Hrun. injection Hrun as Hrun.
  destruct (parseMapString_error _ _ _ _ Hrun)
    as (before & key & s0 & s1 & more & after & Hentries & -> & ->).
  pose proof (range_order_NoDup order rawData Horder) as Hnodup.
  rewrite Hentries, fmap_app, fmap_cons in Hnodup. cbn [fst] in Hnodup.
  apply NoDup_app in Hnodup as (Hbefore & Hdisj & _).
  exists rawData, before, key, s0, s1, more, after.
  split_and!; try done.
  - apply (range_order_elem order); [done|].
    rewrite Hentries. apply elem_of_app. right. apply elem_of_cons. by left.
  - apply lookup_insert_eq.
  - intros k value Hin.
    assert (k <> key) as Hne.
    { intros ->. apply (Hdisj key).
      - apply list_elem_of_fmap. by exists (key, value).
      - apply elem_of_cons. by left. }
    rewrite lookup_insert_ne by done.
    by apply (foldl_insert_entry firstValue).
  - intros k Hne Hk. rewrite lookup_insert_ne by done.
    by apply foldl_insert_other.
  - intros Hold Heq. apply Hold. rewrite <- Heq at 1. apply lookup_insert_eq.
Qed.

(** [parse] on a struct or on a map never returns on a command line whose
    first token has neither flag marker; on a slice it does, the tokens
    being its elements. *)
Lemma parse_bare_token order (sv : StructValue) elem v :
  parse order (ToStruct sv) ["foo"] = None
  /\ parse order (ToMap TString elem v) ["foo"] = None
  /\ parse order (ToSlice TString (VSlice [])) ["foo"]
     = Some (ToSlice TString (VSlice [VString "foo"]), None).
Proof. done. Qed.

End Dictionaries.

(** ** The embedding at work

    The statements below run the definitions on concrete command lines, on
    the decimal standard library. *)

Lemma listOrder_range_order : range_order listOrder.
Proof. intros m. reflexivity. Qed.

(** The tags of the tests and of the example program. *)
Example parseTagData_tags :
  parseTagData "this is an int,r,3"
  = {| Description := "this is an int"; Required := true; ShortFlag := "" |}
  /\ parseTagData "a switch,-b"
     = {| Description := "a switch"; Required := false; ShortFlag := "b" |}
  /\ parseTagData ""
     = {| Description := ""; Required := false; ShortFlag := "" |}.
Proof. split_and?; reflexivity. Qed.

(** The command line of [TestRawArgsMap]. *)
Example rawArgsMap_test :
  rawArgsMap ["--foo"; "asdf"; "asdf"] = Some {["foo" := ["asdf"; "asdf"]]}.
Proof. split_and?; reflexivity. Qed.

(** The example program: [-f] is the alias of [Foo], [Baz] is required. *)
Example parseStruct_example :
  parseStruct
    [(Foo_field, VInt 5); (Bar_field, VFloat (0%Z, 0)); (Baz_field, VString "")]
    ["-f"; "7"; "--bar"; "3.5"; "--baz"; "asdf"]
  = Some ([(Foo_field, VInt 7); (Bar_field, VFloat (35%Z, 1));
           (Baz_field, VString "asdf")], None)
  /\ parseStruct
       [(Foo_field, VInt 5); (Bar_field, VFloat (0%Z, 0));
        (Baz_field, VString "")]
       ["--bar"; "3.5"]
     = Some ([(Foo_field, VInt 5); (Bar_field, VFloat (35%Z, 1));
              (Baz_field, VString "")], Some (ErrRequired "baz")).
Proof. split_and?; reflexivity. Qed.

(** [TestMap] and [TestGetType]: what [parse] accepts. *)
Example parse_destinations :
  parse listOrder (NonPointer TStruct) [] =
    Some (NonPointer TStruct, Some (ErrNonPointer TStruct))
  /\ parse listOrder (ToMap TInt TInt ∅) ["--foo"; "foo"] =
       Some (ToMap TInt TInt ∅, Some (ErrMapKey TInt))
  /\ parse listOrder (ToMap TString TInt ∅) ["--foo"; "5"] =
       Some (ToMap TString TInt ∅, Some (ErrInvalidMap (TMap TString TInt) TInt))
  /\ parse listOrder (ToOther TInt) [] =
       Some (ToOther TInt, Some (ErrInvalidType TInt))
  /\ parse listOrder (ToSlice TInt (VSlice [])) ["5"; "10"] =
       Some (ToSlice TInt (VSlice [VInt 5; VInt 10]), None)
  /\ parse listOrder (ToSlice TString (VSlice [])) ["--foo"; "foobar"; "--baz"] =
       Some (ToSlice TString
               (VSlice [VString "--foo"; VString "foobar"; VString "--baz"]),
             None).
Proof. split_and?; reflexivity. Qed.

(** C5 (as the code runs): [Baz] is required and its tag gives no short
    alias; the command line [-- x] names neither [baz] nor any alias.  The
    tokenizer files [x] under the empty key, [parseStruct] looks the empty
    [ShortFlag] up in the raw map, finds it, and assigns [x] to [Baz]: no
    required-argument error is returned.  (On [--other x] it is.) *)
Theorem parseStruct_empty_key_satisfies_required :
  Required (parseTagData (Tag Baz_field)) = true
  /\ ShortFlag (parseTagData (Tag Baz_field)) = ""
  /\ rawArgsMap ["--"; "x"] = Some {["" := ["x"]]}
  /\ parseStruct [(Baz_field, VString "")] ["--"; "x"]
     = Some ([(Baz_field, VString "x")], None)
  /\ parseStruct [(Baz_field, VString "")] ["--other"; "x"]
     = Some ([(Baz_field, VString "")], Some (ErrRequired "baz")).
Proof. split_and?; reflexivity. Qed.

(** C7 (as the code runs): neither field has a short alias, and the command
    line [-- x] names neither of them.  The parse succeeds, and both fields
    are written from the empty key: the nil pointer now points to [x] and
    the default of [String] is replaced by [x].  (On [--other x] both are
    left as they were.) *)
Theorem parseStruct_empty_key_writes_unnamed_fields :
  rawArgsMap ["--"; "x"] = Some {["" := ["x"]]}
  /\ parseStruct [(Stringptr_field, VPtr None); (String_field, VString "dflt")]
       ["--"; "x"]
     = Some ([(Stringptr_field, VPtr (Some (VString "x")));
              (String_field, VString "x")], None)
  /\ parseStruct [(Stringptr_field, VPtr None); (String_field, VString "dflt")]
       ["--other"; "x"]
     = Some ([(Stringptr_field, VPtr None); (String_field, VString "dflt")],
             None).
Proof. split_and?; reflexivity. Qed.

(** C6 (counterexample): the flag of the pointer field is present without a
    value, so coercion fails and the error is returned; the field does not
    stay nil, it points to a zero. *)
Lemma nullable_field_allocated_before_coercion :
  parseStruct [(Int8ptr_field, VPtr None)] ["--int8ptr"]
  = Some ([(Int8ptr_field, VPtr (Some (VInt 0)))],
          Some (ErrWrap (ErrNotSet "int8ptr")))
  /\ ~ (forall v' err,
          parseStruct [(Int8ptr_field, VPtr None)] ["--int8ptr"]
          = Some (v', Some err) ->
          v' = [(Int8ptr_field, VPtr None)]).
Proof.
  split; [reflexivity|].
  intros Hclaim. specialize (Hclaim _ _ eq_refl). discriminate Hclaim.
Qed.

Lemma parseStruct_nullable_failure_allocates_witness :
  parseStruct
    [(String_field, VString "d"); (Int8ptr_field, VPtr None);
     (Bool_field, VBool false)]
    ["--string"; "x"; "--int8ptr"; "abc"; "--bool"]
  = Some ([(String_field, VString "x"); (Int8ptr_field, VPtr (Some (VInt 0)));
           (Bool_field, VBool false)],
          Some (ErrWrap (ErrNum Decimal.Syntax))).
Proof.
  apply (parseStruct_nullable_failure_allocates
           ["--string"; "x"; "--int8ptr"; "abc"; "--bool"]
           {["string" := ["x"]; "int8ptr" := ["abc"]; "bool" := []]}
           [(String_field, VString "d")] [(String_field, VString "x")]
           [(Bool_field, VBool false)]
           Int8ptr_field (VPtr None) TInt8 ["abc"]);
    first [reflexivity | by vm_compute].
Defined.



Lemma parseMap_interface_witness :
  exists v',
    parseMap listOrder (TMap TString TInterface) ∅
      ["--foo"; "5"; "--bar"; "10.5"; "--baz"; "--qux"; "a"; "b"; "--s"; "t"]
    = Some (v', None)
    /\ v' !! "foo" = Some (VInt 5)
    /\ v' !! "bar" = Some (VFloat (105%Z, 1))
    /\ v' !! "baz" = Some VEmptyStruct
    /\ v' !! "qux" = Some (VSlice [VString "a"; VString "b"])
    /\ v' !! "s" = Some (VString "t").
Proof.
  destruct (parseMap_interface listOrder TString ∅
              ["--foo"; "5"; "--bar"; "10.5"; "--baz"; "--qux"; "a"; "b";
               "--s"; "t"]
              {["foo" := ["5"]; "bar" := ["10.5"]; "baz" := [];
                "qux" := ["a"; "b"]; "s" := ["t"]]}
              listOrder_range_order ltac:(by vm_compute))
    as (v' & Hrun & Hkeys & _).
  exists v'. split; [exact Hrun|]. split_and!.
  - destruct (Hkeys "foo" ["5"] ltac:(by vm_compute)) as (_ & Hone & _).
    exact (Hone "5" eq_refl).
  - destruct (Hkeys "bar" ["10.5"] ltac:(by vm_compute)) as (_ & Hone & _).
    exact (Hone "10.5" eq_refl).
  - destruct (Hkeys "baz" [] ltac:(by vm_compute)) as (Hnone & _).
    exact (Hnone eq_refl).
  - destruct (Hkeys "qux" ["a"; "b"] ltac:(by vm_compute)) as (_ & _ & Hmany).
    apply Hmany. simpl. lia.
  - destruct (Hkeys "s" ["t"] ltac:(by vm_compute)) as (_ & Hone & _).
    exact (Hone "t" eq_refl).
Defined.

(** C10 (counterexample): the destination already binds [q] to [a]; on
    [--q a b] the "specified more than once" error is returned and the
    destination is what it was. *)
Lemma parseMap_string_error_map_unchanged :
  parseMap listOrder (TMap TString TString) {["q" := VString "a"]}
    ["--q"; "a"; "b"]
  = Some ({["q" := VString "a"]}, Some (ErrKeyMoreThanOnce "q"))
  /\ ~ (forall v' err,
          parseMap listOrder (TMap TString TString) {["q" := VString "a"]}
            ["--q"; "a"; "b"] = Some (v', Some err) ->
          v' <> {["q" := VString "a"]}).
Proof.
  assert (parseMap listOrder (TMap TString TString) {["q" := VString "a"]}
            ["--q"; "a"; "b"]
          = Some ({["q" := VString "a"]}, Some (ErrKeyMoreThanOnce "q")))
    as Hrun by reflexivity.
  split; [exact Hrun|].
  intros Hclaim. by apply (Hclaim _ _ Hrun).
Qed.

Lemma parseMap_string_error_after_assignment_witness :
  parseMap listOrder (TMap TString TString)
    {["q" := VString "old"; "r" := VString "kept"]} ["--q"; "a"; "b"]
  = Some ({["q" := VString "a"; "r" := VString "kept"]},
          Some (ErrKeyMoreThanOnce "q"))
  /\ ({["q" := VString "a"; "r" := VString "kept"]} : DestMap)
     <> {["q" := VString "old"; "r" := VString "kept"]}.
Proof.
  assert (parseMap listOrder (TMap TString TString)
            {["q" := VString "old"; "r" := VString "kept"]} ["--q"; "a"; "b"]
          = Some ({["q" := VString "a"; "r" := VString "kept"]},
                  Some (ErrKeyMoreThanOnce "q")))
    as Hrun by reflexivity.
  split; [exact Hrun|].
  destruct (parseMap_string_error_after_assignment listOrder TString
              {["q" := VString "old"; "r" := VString "kept"]}
              ["--q"; "a"; "b"]
              {["q" := VString "a"; "r" := VString "kept"]}
              (ErrKeyMoreThanOnce "q") listOrder_range_order Hrun)
    as (rawData & before & key & s0 & s1 & more & after
        & Hraw & Horder & Hkey & Herr & Hassigned & _ & _ & Hchanged).
  apply Hchanged. injection Herr as <-.
  assert (rawData = {["q" := ["a"; "b"]]}) as ->.
  { vm_compute in Hraw. by injection Hraw as <-. }
  rewrite lookup_singleton_eq in Hkey. injection Hkey as <- _ _.
  intros Hq. discriminate Hq.
Defined.

(** ** More about the tokenizer *)

Section TokenizerShape.
Implicit Types (args rest vs : list string) (acc result : RawMap).

(** X1: [munchArgs] splits the tokens in two: what it returns, none of which
    begins with [--], and what is left, which is empty or begins with a
    token that does. *)
Theorem munchArgs_split args :
  args = munchArgs args ++ drop (length (munchArgs args)) args
  /\ Forall (fun v => HasPrefix v "--" = false) (munchArgs args)
  /\ at_long_flag (drop (length (munchArgs args)) args).
Proof.
  split_and!; [| |apply munchArgs_stops].
  - induction args as [|a rest IH]; [done|]. cbn [munchArgs].
    destruct (HasPrefix a "--"); [done|]. cbn. by rewrite <- IH.
  - induction args as [|a rest IH]; [constructor|]. cbn [munchArgs].
    destruct (HasPrefix a "--") eqn:Ha; constructor; done.
Qed.

Lemma rawArgsMap_body_tokens args acc acc' :
  (rawArgsMap_body args acc).1 = (rawArgsMap_body args acc').1.
Proof.
  destruct args as [|a rest]; [done|]. cbn [rawArgsMap_body].
  destruct (HasPrefix a "--"); [done|].
  destruct (HasPrefix a "-"); [|done]. by destruct (2 <? len a).
Qed.

(** Whether the loop ends does not depend on the map it builds. *)
Lemma rawArgsMap_loop_returns_acc fuel args acc acc' :
  is_Some (rawArgsMap_loop fuel args acc) ->
  is_Some (rawArgsMap_loop fuel args acc').
Proof.
  revert args acc acc'. induction fuel as [|fuel IH]; intros args acc acc' Hrun.
  - by destruct Hrun.
  - destruct args as [|a rest]; [done|].
    rewrite rawArgsMap_loop_cons in *.
    rewrite (rawArgsMap_body_tokens _ acc' acc). by eapply IH.
Qed.

(** From a long flag on, the loop always ends. *)
Lemma rawArgsMap_loop_at_long_flag args acc :
  at_long_flag args -> is_Some (rawArgsMap_loop (S (length args)) args acc).
Proof.
  remember (length args) as n eqn:Hn. revert args acc Hn.
  induction (lt_wf n) as [n _ IH]; intros args acc -> Hhead.
  destruct args as [|a rest]; [done|]. simpl in Hhead.
  rewrite rawArgsMap_loop_cons. cbn [rawArgsMap_body]. rewrite Hhead.
  cbn [fst snd].
  pose proof (munchArgs_stops rest) as Hstop.
  pose proof (munchArgs_length rest) as Hlen.
  set (rest' := drop (length (munchArgs rest)) rest) in *.
  assert (length rest' <= length rest) as Hle
    by (subst rest'; rewrite length_drop; lia).
  destruct (IH (length rest') ltac:(simpl; lia) rest'
              (appendVals (slice_from 2 a) (munchArgs rest) acc) eq_refl Hstop)
    as [m Hm].
  exists m. eapply rawArgsMap_loop_mono; [exact Hm | simpl; lia].
Qed.

Lemma rawArgsMap_loop_munching a rest acc :
  isMunchingFlag a = true ->
  (rawArgsMap_body (a :: rest) acc).1 = drop (length (munchArgs rest)) rest
  /\ (rawArgsMap_body (a :: rest) acc).2
     = appendVals (flagKey a) (munchArgs rest) acc.
Proof.
  unfold isMunchingFlag, flagKey. cbn [rawArgsMap_body].
  destruct (HasPrefix a "--"); [done|].
  destruct (HasPrefix a "-"); [|done].
  by destruct (2 <? len a).
Qed.

Lemma rawArgsMap_returns_iff_acc args acc :
  (exists fuel, is_Some (rawArgsMap_loop fuel args acc)) <->
  match dropClusters args with
  | [] => True
  | a :: _ => HasPrefix a "-" = true
  end.
Proof.
  revert acc. induction args as [|a rest IH]; intros acc.
  { split; [done|]. intros _. by exists 1. }
  cbn [dropClusters]. unfold isCluster.
  destruct (HasPrefix a "--") eqn:Hlong; cbn [negb andb].
  { assert (HasPrefix a "-" = true) as ->.
    { unfold HasPrefix in *. destruct a as [|c a]; [done|].
      cbn [String.prefix] in *.
      destruct (ascii_dec "-" c); [by destruct a | done]. }
    split; [done|]. intros _. exists (S (length (a :: rest))).
    by apply rawArgsMap_loop_at_long_flag. }
  destruct (HasPrefix a "-") eqn:Hshort; cbn [andb].
  - destruct (2 <? len a) eqn:Hlen.
    + rewrite <- (IH (registerSwitches a acc)). split.
      * intros [[|fuel] Hrun]; [by destruct Hrun|]. exists fuel.
        rewrite rawArgsMap_loop_cons in Hrun. cbn [rawArgsMap_body] in Hrun.
        by rewrite Hlong, Hshort, Hlen in Hrun.
      * intros [fuel Hrun]. exists (S fuel).
        rewrite rawArgsMap_loop_cons. cbn [rawArgsMap_body].
        by rewrite Hlong, Hshort, Hlen.
    + rewrite Hshort. split; [done|]. intros _.
      exists (S (S (length rest))).
      rewrite rawArgsMap_loop_cons.
      destruct (rawArgsMap_loop_munching a rest acc) as [-> ->].
      { unfold isMunchingFlag. by rewrite Hlong, Hshort, Hlen. }
      pose proof (munchArgs_stops rest) as Hstop.
      destruct (rawArgsMap_loop_at_long_flag _
                  (appendVals (flagKey a) (munchArgs rest) acc) Hstop)
        as [m Hm].
      exists m. eapply rawArgsMap_loop_mono; [exact Hm|].
      rewrite length_drop. lia.
  - rewrite Hshort. split; [|done].
    intros [fuel Hrun]. rewrite rawArgsMap_loop_bare in Hrun by done.
    by destruct Hrun.
Qed.

(** X2: [rawArgsMap] returns exactly on the command lines that, after any
    number of leading clusters, are at their end or go on with a token that
    begins with [-].  On all others its loop never ends. *)
Theorem rawArgsMap_returns_iff args :
  is_Some (rawArgsMap args) <->
  match dropClusters args with
  | [] => True
  | a :: _ => HasPrefix a "-" = true
  end.
Proof.
  rewrite <- (rawArgsMap_returns_iff_acc args ∅). split.
  - intros Hrun. by exists (S (length args)).
  - intros [fuel [m Hm]]. exists m. by eapply rawArgsMap_loop_complete.
Qed.

Lemma registerSwitches_lookup (keyOf : nat -> string) (l : list nat) acc k :
  (foldl (fun m i => <[keyOf i := []]> m) acc l !! k = Some []
   /\ exists i, i ∈ l /\ k = keyOf i)
  \/ (foldl (fun m i => <[keyOf i := []]> m) acc l !! k = acc !! k
      /\ ~ exists i, i ∈ l /\ k = keyOf i).
Proof.
  revert acc. induction l as [|i l IH]; intros acc; cbn [foldl].
  - right. split; [done|]. intros (i & Hi & _). by apply elem_of_nil in Hi.
  - destruct (IH (<[keyOf i := []]> acc)) as [[Hk (j & Hj & ->)]|[Hk Hnone]].
    + left. split; [done|]. exists j. split; [by apply elem_of_cons; right|done].
    + destruct (decide (k = keyOf i)) as [->|Hne].
      * left. rewrite Hk, lookup_insert_eq. split; [done|].
        exists i. split; [by apply elem_of_cons; left | done].
      * right. rewrite Hk, lookup_insert_ne by done. split; [done|].
        intros (j & [->|Hj]%elem_of_cons & Hj'); [done|].
        apply Hnone. by exists j.
Qed.

(** X3: a cluster alone on the command line registers, with no values, the
    one-byte keys found between its marker and its last byte, and no other
    key: the last byte of the cluster is left out. *)
Theorem rawArgsMap_cluster (s : string) :
  isCluster s = true ->
  exists m,
    rawArgsMap [s] = Some m
    /\ forall k,
         (m !! k = Some [] <->
          exists i, 1 <= i /\ i + 1 < len s /\ k = slice i (i + 1) s)
         /\ (m !! k = None \/ m !! k = Some []).
Proof.
  unfold isCluster. intros Hs.
  destruct (HasPrefix s "--") eqn:Hlong; [done|].
  destruct (HasPrefix s "-") eqn:Hshort; [|done].
  destruct (2 <? len s) eqn:Hlen; [|done].
  exists (registerSwitches s ∅). split.
  - unfold rawArgsMap. rewrite rawArgsMap_loop_cons. cbn [rawArgsMap_body].
    by rewrite Hlong, Hshort, Hlen.
  - intros k. unfold registerSwitches. apply Nat.ltb_lt in Hlen.
    destruct (registerSwitches_lookup (fun i => slice (i - 1) i s)
                (seq 2 (len s - 2)) ∅ k)
      as [[-> (i & Hi%elem_of_seq & ->)]|[-> Hnone]].
    + split; [|by right]. split; [|done]. intros _.
      exists (i - 1). split_and!; [lia..|].
      by replace (i - 1 + 1) with i by lia.
    + rewrite lookup_empty. split; [|by left]. split; [done|].
      intros (i & Hi1 & Hi2 & ->). exfalso. apply Hnone.
      exists (S i). split.
      * apply elem_of_seq. lia.
      * by replace (S i - 1) with i by lia; replace (i + 1) with (S i) by lia.
Qed.

Lemma mergeRaw_lookup m1 m2 k :
  mergeRaw m1 m2 !! k =
  match m1 !! k, m2 !! k with
  | Some l1, Some l2 => Some (l1 ++ l2)
  | Some l1, None => Some l1
  | None, o => o
  end.
Proof.
  unfold mergeRaw. rewrite lookup_union_with.
  by destruct (m1 !! k), (m2 !! k).
Qed.

Lemma mergeRaw_empty_r m : mergeRaw m ∅ = m.
Proof.
  apply map_eq. intros k. rewrite mergeRaw_lookup, lookup_empty.
  by destruct (m !! k).
Qed.

Lemma mergeRaw_appendVals key vals acc m :
  mergeRaw (appendVals key vals acc) m
  = mergeRaw acc (mergeRaw {[key := vals]} m).
Proof.
  apply map_eq. intros k. rewrite !mergeRaw_lookup. unfold appendVals.
  destruct (decide (k = key)) as [->|Hne].
  - rewrite lookup_insert_eq, lookup_singleton_eq.
    destruct (acc !! key), (m !! key); cbn; by rewrite <- ?app_assoc.
  - rewrite lookup_insert_ne, lookup_singleton_ne by done.
    by destruct (acc !! k), (m !! k).
Qed.

(** From a long flag on, a run that starts with the map [acc] ends with
    [acc] merged in front of what the run gives from the empty map. *)
Lemma rawArgsMap_loop_merge fuel args acc m :
  at_long_flag args ->
  rawArgsMap_loop fuel args ∅ = Some m ->
  rawArgsMap_loop fuel args acc = Some (mergeRaw acc m).
Proof.
  revert args acc m.
  induction fuel as [|fuel IH]; intros args acc m Hhead Hrun; [done|].
  destruct args as [|a rest].
  { cbn in Hrun. injection Hrun as <-. by rewrite mergeRaw_empty_r. }
  simpl in Hhead.
  rewrite rawArgsMap_loop_cons in *. cbn [rawArgsMap_body] in *.
  rewrite Hhead in *. cbn [fst snd] in *.
  pose proof (munchArgs_stops rest) as Hstop.
  set (rest' := drop (length (munchArgs rest)) rest) in *.
  destruct (rawArgsMap_loop_returns_acc fuel rest' _ ∅ (mk_is_Some _ _ Hrun))
    as [m0 Hm0].
  rewrite (IH _ _ _ Hstop Hm0) in Hrun. injection Hrun as <-.
  rewrite (IH _ _ _ Hstop Hm0).
  by rewrite appendVals_empty, mergeRaw_appendVals.
Qed.

(** X4: a munching flag with the values [vs] it munches, put in front of a
    command line that is at its end or begins with a long flag, adds [vs]
    in front of the values its key has in the map of that command line, and
    changes nothing else. *)
Theorem rawArgsMap_flag_group a vs rest :
  isMunchingFlag a = true ->
  Forall (fun v => HasPrefix v "--" = false) vs ->
  at_long_flag rest ->
  exists m,
    rawArgsMap rest = Some m
    /\ rawArgsMap (a :: vs ++ rest)
       = Some (<[flagKey a := vs ++ default [] (m !! flagKey a)]> m).
Proof.
  intros Ha Hvs Hrest.
  destruct (rawArgsMap_loop_at_long_flag rest ∅ Hrest) as [m Hm].
  exists m. split; [exact Hm|].
  assert (munchArgs (vs ++ rest) = vs) as Hmunch.
  { clear -Hvs Hrest. induction Hvs as [|v vs Hv _ IH]; cbn [app munchArgs].
    - destruct rest as [|r rest]; [done|]. simpl in Hrest. cbn.
      by rewrite Hrest.
    - by rewrite Hv, IH. }
  unfold rawArgsMap. rewrite rawArgsMap_loop_cons.
  destruct (rawArgsMap_loop_munching a (vs ++ rest) ∅ Ha) as [-> ->].
  rewrite Hmunch, drop_app_length, appendVals_empty.
  rewrite (rawArgsMap_loop_merge _ _ _ m); [|done|].
  - f_equal. apply map_eq. intros k. rewrite mergeRaw_lookup.
    destruct (decide (k = flagKey a)) as [->|Hne].
    + rewrite lookup_insert_eq, lookup_singleton_eq.
      destruct (m !! flagKey a); cbn; by rewrite ?app_nil_r.
    + rewrite lookup_insert_ne, lookup_singleton_ne by done. done.
  - eapply rawArgsMap_loop_mono; [exact Hm|].
    cbn. rewrite length_app. lia.
Qed.

End TokenizerShape.

Lemma rawArgsMap_cluster_witness :
  exists m, rawArgsMap ["-xvf"] = Some m
    /\ m !! "x" = Some [] /\ m !! "v" = Some [] /\ m !! "f" = None.
Proof.
  destruct (rawArgsMap_cluster "-xvf" eq_refl) as (m & Hm & Hkeys).
  exists m. split; [exact Hm|]. split_and!.
  - apply Hkeys. exists 1. split_and!; [lia | change (len "-xvf") with 4; lia | reflexivity].
  - apply Hkeys. exists 2. split_and!; [lia | change (len "-xvf") with 4; lia | reflexivity].
  - destruct (Hkeys "f") as [Hiff [Hnone|Hsome]]; [done|].
    apply Hiff in Hsome as (i & Hi1 & Hi2 & Hk).
    change (len "-xvf") with 4 in Hi2.
    assert (i = 1 \/ i = 2) as [-> | ->] by lia; discriminate Hk.
Defined.

Lemma rawArgsMap_flag_group_witness :
  rawArgsMap ["-n"; "1"; "--n"; "2"; "--m"] =
  Some (<["n" := ["1"] ++ ["2"]]> {["n" := ["2"]; "m" := []]}).
Proof.
  destruct (rawArgsMap_flag_group "-n" ["1"] ["--n"; "2"; "--m"])
    as (m & Hm & Hrun); [done | by repeat constructor | done |].
  assert (m = {["n" := ["2"]; "m" := []]}) as ->.
  { vm_compute in Hm. by injection Hm as <-. }
  exact Hrun.
Defined.

(** ** More about tags *)

Section Tags.
Implicit Types (td : tagData) (parts before after : list string).

Lemma SplitComma_cons (tag : string) :
  exists p0 parts, SplitComma tag = p0 :: parts.
Proof.
  unfold SplitComma. generalize EmptyString as cur.
  induction tag as [|c tag IH]; intros cur; cbn [split_go]; [by eauto|].
  destruct (Ascii.eqb c ","); [by eauto | apply IH].
Qed.

Lemma tagModifier_fold td parts :
  Description (foldl tagModifier td parts) = Description td
  /\ (Required (foldl tagModifier td parts) = true <->
      Required td = true \/ "r" ∈ parts).
Proof.
  revert td. induction parts as [|p parts IH]; intros td; cbn [foldl].
  - split; [done|]. split; [by left|]. intros [?|Hin]; [done|].
    by apply elem_of_nil in Hin.
  - destruct (IH (tagModifier td p)) as [-> ->]. unfold tagModifier.
    rewrite elem_of_cons.
    destruct (HasPrefix p "-" && (len p =? 2)) eqn:Halias; cbn.
    + split; [done|].
      assert ("r" <> p) by (intros <-; discriminate Halias). tauto.
    + destruct (String.eqb_spec p "r") as [->|Hne]; cbn.
      * split; [done|]. tauto.
      * split; [done|]. assert ("r" <> p) by congruence. tauto.
Qed.

(** X5: the description of a tag is its text up to the first comma, and
    the field is required exactly when one of the later comma-separated
    segments is [r]; an [r] in the first segment is description only. *)
Theorem parseTagData_required (tag : string) :
  exists p0 parts,
    SplitComma tag = p0 :: parts
    /\ Description (parseTagData tag) = p0
    /\ (Required (parseTagData tag) = true <-> "r" ∈ parts).
Proof.
  destruct (SplitComma_cons tag) as (p0 & parts & Hsplit).
  exists p0, parts. split; [done|]. unfold parseTagData. rewrite Hsplit.
  destruct (tagModifier_fold
              {| Description := p0; Required := false; ShortFlag := "" |}
              parts) as [-> ->].
  split; [done|]. cbn. split; [by intros [?|?] | by right].
Qed.

Lemma alias_segment (p : string) :
  isAliasSegment p = true ->
  exists c, p = String "-" (String c "") /\ slice_from 1 p = String c "".
Proof.
  unfold isAliasSegment. intros [Hpre Hlen%Nat.eqb_eq]%andb_true_iff.
  destruct p as [|c0 [|c [|c1 p]]]; try done.
  unfold HasPrefix in Hpre. cbn [String.prefix] in Hpre.
  destruct (ascii_dec "-" c0) as [<-|]; [|done].
  by exists c.
Qed.

Lemma tagModifier_short_flag td parts :
  (Forall (fun p => isAliasSegment p = false) parts ->
   ShortFlag (foldl tagModifier td parts) = ShortFlag td)
  /\ (forall before p after,
        parts = before ++ p :: after ->
        isAliasSegment p = true ->
        Forall (fun q => isAliasSegment q = false) after ->
        ShortFlag (foldl tagModifier td parts) = slice_from 1 p).
Proof.
  revert td. induction parts as [|p0 parts IH]; intros td; cbn [foldl].
  - split; [done|]. intros [|??] ?? Heq; discriminate Heq.
  - destruct (IH (tagModifier td p0)) as [IH1 IH2]. split.
    + intros [Hp0 Hparts]%Forall_cons. rewrite IH1 by done.
      unfold tagModifier. fold (isAliasSegment p0). rewrite Hp0.
      by destruct (String.eqb p0 "r").
    + intros [|b before] p after Heq Hp Hafter; injection Heq as -> ->.
      * rewrite IH1 by done. unfold tagModifier.
        fold (isAliasSegment p). by rewrite Hp.
      * by eapply IH2.
Qed.

Lemma last_alias_segment parts :
  Forall (fun p => isAliasSegment p = false) parts
  \/ exists before p after,
       parts = before ++ p :: after /\ isAliasSegment p = true
       /\ Forall (fun q => isAliasSegment q = false) after.
Proof.
  induction parts as [|p0 parts [IH|(before & p & after & -> & Hp & Hafter)]].
  - by left.
  - destruct (isAliasSegment p0) eqn:Hp0.
    + right. by exists [], p0, parts.
    + left. by constructor.
  - right. by exists (p0 :: before), p, after.
Qed.

(** X6: the short flag of a tag is empty or one byte long.  It is empty
    exactly when no later segment is two bytes long and begins with [-];
    otherwise it is the second byte of the last such segment. *)
Theorem parseTagData_short_flag (tag : string) :
  exists p0 parts,
    SplitComma tag = p0 :: parts
    /\ len (ShortFlag (parseTagData tag)) <= 1
    /\ (ShortFlag (parseTagData tag) = "" <->
        Forall (fun p => isAliasSegment p = false) parts)
    /\ (forall before p after,
          parts = before ++ p :: after ->
          isAliasSegment p = true ->
          Forall (fun q => isAliasSegment q = false) after ->
          ShortFlag (parseTagData tag) = slice_from 1 p).
Proof.
  destruct (SplitComma_cons tag) as (p0 & parts & Hsplit).
  exists p0, parts. split; [done|]. unfold parseTagData. rewrite Hsplit.
  destruct (tagModifier_short_flag
              {| Description := p0; Required := false; ShortFlag := "" |}
              parts) as [Hnone Hlast].
  split_and!; [| |exact Hlast].
  - destruct (last_alias_segment parts)
      as [Hall|(before & p & after & Heq & Hp & Hafter)].
    + rewrite Hnone by done. cbn. lia.
    + rewrite (Hlast _ _ _ Heq Hp Hafter).
      destruct (alias_segment p Hp) as (c & _ & ->). cbn. lia.
  - split; [|exact Hnone]. intros Hempty.
    destruct (last_alias_segment parts)
      as [Hall|(before & p & after & Heq & Hp & Hafter)]; [done|].
    rewrite (Hlast _ _ _ Heq Hp Hafter) in Hempty.
    destruct (alias_segment p Hp) as (c & _ & Hc). by rewrite Hc in Hempty.
Qed.

End Tags.

(** ** More about slices *)

Section Slices.
Context `{StdLib}.

Lemma convertAll_ok {A : Type} (conv : string -> A + NumError) args ns :
  convertAll conv args = inl ns <->
  Forall2 (fun s n => conv s = inl n) args ns.
Proof.
  revert ns. induction args as [|s args IH]; intros ns; cbn [convertAll].
  - split; [by intros [= <-]; constructor | by intros ->%Forall2_nil_inv_l].
  - destruct (conv s) as [n|e] eqn:Hs.
    + destruct (convertAll conv args) as [ms|e] eqn:Hrest.
      * split.
        -- intros [= <-]. constructor; [done | by apply IH].
        -- intros (n' & ns' & Hn & Hns & ->)%Forall2_cons_inv_l.
           apply IH in Hns. congruence.
      * split; [done|].
        intros (n' & ns' & Hn & Hns & ->)%Forall2_cons_inv_l.
        apply IH in Hns. congruence.
    + split; [done|].
      intros (n' & ns' & Hn & Hns & ->)%Forall2_cons_inv_l. congruence.
Qed.

Lemma convertAll_error {A : Type} (conv : string -> A + NumError) args e :
  convertAll conv args = inr e <->
  exists before s after,
    args = before ++ s :: after
    /\ Forall (fun x => exists n, conv x = inl n) before
    /\ conv s = inr e.
Proof.
  induction args as [|s args IH]; cbn [convertAll].
  - split; [done|]. intros ([|??] & ? & ? & Heq & _); discriminate Heq.
  - destruct (conv s) as [n|e'] eqn:Hs.
    + destruct (convertAll conv args) as [ms|e'] eqn:Hrest.
      * split; [done|].
        intros ([|b before] & x & after & Heq & Hbefore & Hx);
          injection Heq as -> ->; [congruence|].
        apply Forall_cons in Hbefore as [_ Hbefore].
        assert (@inl (list A) NumError ms = inr e) as Hbad; [|done].
        apply IH. by exists before, x, after.
      * split.
        -- intros [= ->].
           destruct (proj1 IH eq_refl)
             as (before & x & after & -> & Hbefore & Hx).
           exists (s :: before), x, after. split_and!; [done| |done].
           constructor; [by exists n | done].
        -- intros ([|b before] & x & after & Heq & Hbefore & Hx);
             injection Heq as -> ->; [congruence|].
           apply Forall_cons in Hbefore as [_ Hbefore].
           f_equal. assert (@inr (list A) NumError e' = inr e) as [= ->]; [|done].
           apply IH. by exists before, x, after.
    + split.
      * intros [= ->]. by exists [], s, args.
      * intros ([|b before] & x & after & Heq & Hbefore & Hx);
          injection Heq as -> ->; [congruence|].
        apply Forall_cons in Hbefore as [[n Hn] _]. congruence.
Qed.

(** X7: a slice that [fillSlice] stores has one element per token, in
    whatever supported element type. *)
Theorem fillSlice_length typ args v :
  fillSlice typ args = inl v ->
  exists xs, v = VSlice xs /\ length xs = length args.
Proof.
  unfold fillSlice.
  destruct (Elem typ); try done;
    try (intros [= <-]; eexists; split; [done|]; by rewrite length_fmap);
    match goal with
    | |- context [convertAll ?conv args] =>
        destruct (convertAll conv args) as [ns|e] eqn:Hconv; [|done];
        apply convertAll_ok, Forall2_length in Hconv;
        intros [= <-]; eexists; split; [done|]; by rewrite length_fmap
    end.
Qed.

(** X8: for a slice of integers, [fillSlice] fails exactly when some token
    does not parse at the width of the element type; the error is that of
    the first such token, and the tokens after it are not looked at. *)
Theorem fillSlice_int_first_error elem args err :
  elem ∈ intTypes ->
  fillSlice (TSlice elem) args = inr err <->
  exists before s after e,
    args = before ++ s :: after
    /\ Forall (fun x => exists n, ParseInt x 0 (Bits elem) = inl n) before
    /\ ParseInt s 0 (Bits elem) = inr e
    /\ err = ErrWrap (ErrNum e).
Proof.
  intros Helem. unfold fillSlice. cbn [Elem].
  assert (forall conv, conv = (fun s => ParseInt s 0 (Bits elem)) ->
    match convertAll conv args with
    | inl ns => inl (VSlice (VInt <$> ns))
    | inr e => inr (ErrWrap (ErrNum e))
    end = inr err <->
    exists before s after e,
      args = before ++ s :: after
      /\ Forall (fun x => exists n, conv x = inl n) before
      /\ conv s = inr e /\ err = ErrWrap (ErrNum e)) as Hgen.
  { intros conv _. destruct (convertAll conv args) as [ns|e] eqn:Hconv.
    - split; [done|]. intros (before & s & after & e & Hargs & Hb & Hs & _).
      assert (convertAll conv args = inr e) as Hbad; [|congruence].
      apply convertAll_error. by exists before, s, after.
    - apply convertAll_error in Hconv as (before & s & after & Hargs & Hb & Hs).
      split.
      + intros [= <-]. by exists before, s, after, e.
      + intros (before' & s' & after' & e' & Hargs' & Hb' & Hs' & ->).
        do 3 f_equal.
        assert (convertAll conv args = inr e) as H1
          by (apply convertAll_error; by exists before, s, after).
        assert (convertAll conv args = inr e') as H2
          by (apply convertAll_error; by exists before', s', after').
        congruence. }
  scalar_cases Helem; by apply Hgen.
Qed.

End Slices.

(** ** More about records *)

Section RecordPasses.
Context `{StdLib}.
Implicit Types (rawData : RawMap) (field : StructField) (fval : Value)
  (v : StructValue).

Lemma parseField_skipped rawData field fval :
  PkgPath field <> "" \/ Anonymous field = true ->
  parseField rawData field fval = (fval, None).
Proof.
  intros Hskip. unfold parseField.
  destruct (String.eqb_spec (PkgPath field) "") as [Hpkg|Hpkg]; [|done].
  destruct Hskip as [? | ->]; done.
Qed.

(** A [switch] that succeeds stores a value that does not depend on what
    the slot held. *)
Lemma assignField_success ftype fieldType name data cur cur' :
  (assignField ftype fieldType name data cur).2 = None ->
  assignField ftype fieldType name data cur'
  = assignField ftype fieldType name data cur.
Proof.
  unfold assignField.
  destruct ftype; try done;
    repeat (match goal with
            | |- context [match ?x with _ => _ end] => destruct x
            end; try done).
Qed.

Lemma parseField_success_again rawData field fval fval' :
  parseField rawData field fval = (fval', None) ->
  parseField rawData field fval' = (fval', None).
Proof.
  unfold parseField.
  destruct (negb _ || _); [by intros [= ->]|].
  destruct (lookupFlag _ _ _) as [data|].
  - destruct (Type_ field) eqn:Htype; try done;
      intros Hrun;
      first [ by rewrite (assignField_success _ _ _ _ fval), Hrun
                by (by rewrite Hrun) ].
  - destruct (negb _); [by intros [= ->] | done].
Qed.

Lemma parseFields_error rawData v v' err :
  parseFields rawData v = (v', Some err) ->
  exists before field fval after before' fval',
    v = before ++ (field, fval) :: after
    /\ parseFields rawData before = (before', None)
    /\ parseField rawData field fval = (fval', Some err)
    /\ v' = before' ++ (field, fval') :: after.
Proof.
  revert v'. induction v as [|[f x] v IH]; intros v' Hrun; [done|].
  cbn [parseFields] in Hrun.
  destruct (parseField rawData f x) as [x' [e|]] eqn:Hf.
  - injection Hrun as <- <-. by exists [], f, x, v, [], x'.
  - destruct (parseFields rawData v) as [rest' e] eqn:Hrest.
    injection Hrun as <- ->.
    destruct (IH _ eq_refl)
      as (before & field & fval & after & before' & fval' & -> & Hb & Hfd & ->).
    exists ((f, x) :: before), field, fval, after, ((f, x') :: before'), fval'.
    split_and!; [done| |done|done].
    cbn [parseFields]. by rewrite Hf, Hb.
Qed.

Lemma parseFields_success rawData v v' :
  parseFields rawData v = (v', None) <->
  Forall2 (fun fx fx' =>
             fx'.1 = fx.1 /\ parseField rawData fx.1 fx.2 = (fx'.2, None))
    v v'.
Proof.
  revert v'. induction v as [|[f x] v IH]; intros v'; cbn [parseFields].
  - split; [by intros [= <-]; constructor | by intros ->%Forall2_nil_inv_l].
  - destruct (parseField rawData f x) as [x' [e|]] eqn:Hf.
    + split; [done|].
      intros ([f' y] & ? & [_ Hy] & _ & _)%Forall2_cons_inv_l.
      cbn in Hy. rewrite Hf in Hy. discriminate Hy.
    + destruct (parseFields rawData v) as [rest' e] eqn:Hrest. split.
      * intros [= <- ->]. constructor; [done | by apply IH].
      * intros ([f' y] & w & [Hf' Hy] & Hw & ->)%Forall2_cons_inv_l.
        cbn in *. apply IH in Hw. rewrite Hf in Hy.
        injection Hy as <-. injection Hw as <- <-. by subst f'.
Qed.

(** X9: [parseStruct] stops at the first field whose pass fails.  The
    struct it leaves has the fields before that one as their passes set
    them, that field as its failing pass left it, and every field after it
    as the caller gave it; the error is that of the failing pass. *)
Theorem parseStruct_first_error v args v' err :
  parseStruct v args = Some (v', Some err) ->
  exists rawData before field fval after before' fval',
    rawArgsMap args = Some rawData
    /\ v = before ++ (field, fval) :: after
    /\ parseFields rawData before = (before', None)
    /\ parseField rawData field fval = (fval', Some err)
    /\ v' = before' ++ (field, fval') :: after.
Proof.
  unfold parseStruct. destruct (rawArgsMap args) as [rawData|]; [|done].
  intros [= Hrun]. apply parseFields_error in Hrun
    as (before & field & fval & after & before' & fval' & ? & ? & ? & ?).
  by exists rawData, before, field, fval, after, before', fval'.
Qed.

(** X10: [parseStruct] succeeds exactly when the tokenizer returns and the
    pass of every field succeeds on its own; the struct it leaves has the
    same fields in the same order, each with the value its own pass set.
    No field's outcome depends on another field. *)
Theorem parseStruct_success_pointwise v args v' :
  parseStruct v args = Some (v', None) <->
  exists rawData,
    rawArgsMap args = Some rawData
    /\ Forall2 (fun fx fx' =>
                  fx'.1 = fx.1
                  /\ parseField rawData fx.1 fx.2 = (fx'.2, None))
         v v'.
Proof.
  unfold parseStruct. destruct (rawArgsMap args) as [rawData|].
  - split.
    + intros [= Hrun]. exists rawData. split; [done|].
      by apply parseFields_success.
    + intros (? & [= <-] & Hall). apply parseFields_success in Hall.
      by rewrite Hall.
  - split; [done | by intros (? & ? & _)].
Qed.

(** X12: a field that is unexported or embedded is never written,
    whatever the tokens and whether or not [parseStruct] fails. *)
Theorem parseStruct_skips_unexported v args v' err i field fval :
  parseStruct v args = Some (v', err) ->
  v !! i = Some (field, fval) ->
  PkgPath field <> "" \/ Anonymous field = true ->
  v' !! i = Some (field, fval).
Proof.
  unfold parseStruct. destruct (rawArgsMap args) as [rawData|]; [|done].
  intros [= Hrun] Hi Hskip. revert v' err i Hrun Hi.
  induction v as [|[f x] v IH]; intros v' err i; cbn [parseFields]; [done|].
  destruct (parseField rawData f x) as [x' [e|]] eqn:Hf.
  - intros [= <- _]. destruct i as [|i]; cbn; [|done].
    intros [= -> ->]. rewrite parseField_skipped in Hf by done. congruence.
  - destruct (parseFields rawData v) as [rest' e] eqn:Hrest.
    intros [= <- _]. destruct i as [|i]; cbn.
    + intros [= -> ->]. rewrite parseField_skipped in Hf by done. congruence.
    + by eapply IH.
Qed.

(** X13: a pass that fails on a field that is not a pointer leaves the
    field as the caller gave it. *)
Theorem parseField_failure_keeps_value rawData field fval fval' err :
  (forall t, Type_ field <> TPtr t) ->
  parseField rawData field fval = (fval', Some err) ->
  fval' = fval.
Proof.
  intros Hptr. unfold parseField.
  destruct (negb _ || _); [done|].
  destruct (lookupFlag _ _ _) as [data|].
  - destruct (Type_ field) eqn:Htype;
      try (by exfalso; eapply Hptr);
      intros Hrun;
      match type of Hrun with
      | assignField ?t ?ft ?n ?d ?c = _ =>
          pose proof (assignField_error t ft n d c err) as Hkeep;
          rewrite Hrun in Hkeep; by apply Hkeep
      end.
  - destruct (negb _); by intros [= ->].
Qed.

(** X14: parsing a command line a second time into the struct that a
    successful parse left gives that struct again, without error. *)
Theorem parseStruct_idempotent v args v' :
  parseStruct v args = Some (v', None) ->
  parseStruct v' args = Some (v', None).
Proof.
  intros (rawData & Hraw & Hall)%parseStruct_success_pointwise.
  apply parseStruct_success_pointwise. exists rawData. split; [done|].
  clear Hraw. induction Hall as [|[f x] [f' x'] v w [Hf Hx] _ IH];
    constructor; [|done].
  cbn in *. subst f'. split; [done|]. by eapply parseField_success_again.
Qed.

(** X15: no command line turns a boolean off: after a pass without error
    a field of type [bool] or [*bool] holds what it held before, or true
    (through a new pointer for [*bool]). *)
Theorem parseField_bool_only_sets rawData field fval fval' :
  Type_ field = TBool \/ Type_ field = TPtr TBool ->
  parseField rawData field fval = (fval', None) ->
  fval' = fval \/ fval' = stored field (VBool true).
Proof.
  intros Htype. unfold parseField, stored.
  destruct (negb _ || _); [by intros [= ->]; left|].
  destruct (lookupFlag _ _ _) as [data|].
  - destruct Htype as [-> | ->]; cbn;
      (destruct data; cbn; [by intros [= <-]; right | done]).
  - destruct (negb _); [by intros [= ->]; left | done].
Qed.

End RecordPasses.

(** ** More about dictionaries and the entry point *)

Section Destinations.
Context `{StdLib}.
Implicit Types (rawData : RawMap) (v : DestMap)
  (entries : list (string * list string)).

Lemma parseMapString_success entries v :
  Forall (fun kv => length kv.2 <= 1) entries ->
  parseMapString entries v
  = (foldl (fun m kv => <[kv.1 := firstValue kv.2]> m) v entries, None).
Proof.
  intros Hall. revert v.
  induction Hall as [|[key value] entries Hlen _ IH]; intros v; [done|].
  cbn [parseMapString foldl fst snd]. cbn in Hlen.
  destruct value as [|s0 [|s1 value]]; [apply IH..|simpl in Hlen; lia].
Qed.

Lemma parseMapString_success_inv entries v v' :
  parseMapString entries v = (v', None) ->
  Forall (fun kv => length kv.2 <= 1) entries.
Proof.
  revert v. induction entries as [|[key value] entries IH]; intros v Hrun;
    [constructor|].
  cbn [parseMapString] in Hrun.
  destruct value as [|s0 [|s1 value]]; cbn in Hrun; [..|done];
    (constructor; [cbn; lia | by eapply IH]).
Qed.

Lemma foldl_insert_closed (f : list string -> Value) order rawData v :
  range_order order ->
  foldl (fun m kv => <[kv.1 := f kv.2]> m) v (order rawData)
  = (f <$> rawData) ∪ v.
Proof.
  intros Horder. apply map_eq. intros k.
  rewrite lookup_union, lookup_fmap.
  destruct (rawData !! k) as [value|] eqn:Hk; cbn.
  - rewrite (foldl_insert_entry f _ _ k value);
      [by destruct (v !! k) | by apply range_order_NoDup
      | by apply (range_order_elem order)].
  - rewrite foldl_insert_other; [by destruct (v !! k)|].
    intros [[k' value] [-> Hin]]%list_elem_of_fmap. cbn in Hk.
    apply (range_order_elem order) in Hin; [|done]. congruence.
Qed.

(** X16: for a [map[string]string] destination on which the tokenizer
    returns, [parseMap] succeeds exactly when no key of the raw map has more
    than one raw value.  The destination then has every key of the raw map
    bound to its raw value, or to the empty string when it has none, and its
    other keys as they were: the same map for every order of iteration. *)
Theorem parseMap_string_success order key_ v args rawData :
  range_order order ->
  rawArgsMap args = Some rawData ->
  (forall v', parseMap order (TMap key_ TString) v args = Some (v', None) ->
     map_Forall (fun _ value => length value <= 1) rawData)
  /\ (map_Forall (fun _ value => length value <= 1) rawData ->
      parseMap order (TMap key_ TString) v args
      = Some ((firstValue <$> rawData) ∪ v, None)).
Proof.
  intros Horder Hraw. unfold parseMap, parseMapEntries. rewrite Hraw.
  cbn [Elem]. split.
  - intros v' [= Hrun]. apply parseMapString_success_inv in Hrun.
    intros k value Hk. apply (range_order_elem order) in Hk; [|done].
    rewrite Forall_forall in Hrun. exact (Hrun _ Hk).
  - intros Hall. rewrite parseMapString_success.
    + by rewrite (foldl_insert_closed firstValue).
    + apply Forall_forall. intros [k value] Hin.
      apply (range_order_elem order) in Hin; [|done]. exact (Hall _ _ Hin).
Qed.

(** X17: for a map whose value type is neither string nor interface,
    [parse] reports the type only after the tokenizer has run: it returns
    the invalid-type error, with the destination untouched, exactly when
    the tokenizer returns, and never returns when the tokenizer does not. *)
Theorem parse_map_value_type order elem v args :
  elem <> TString -> elem <> TInterface ->
  parse order (ToMap TString elem v) args
  = (fun _ => (ToMap TString elem v,
               Some (ErrInvalidMap (TMap TString elem) elem)))
    <$> rawArgsMap args.
Proof.
  intros Hstr Hiface. unfold parse, parseMap, parseMapEntries.
  cbn [getType pointee Elem].
  destruct (rawArgsMap args); [|done]. cbn.
  by destruct elem.
Qed.

(** X18: [parse] into a slice always returns, the tokenizer not being
    run.  On success the destination is the slice made from the tokens,
    whatever it held before; on failure it is as the caller gave it. *)
Theorem parse_slice order elem (old : Value) args :
  (exists s, fillSlice (TSlice elem) args = inl s
             /\ parse order (ToSlice elem old) args
                = Some (ToSlice elem s, None))
  \/ (exists err, fillSlice (TSlice elem) args = inr err
                  /\ parse order (ToSlice elem old) args
                     = Some (ToSlice elem old, Some err)).
Proof.
  unfold parse. cbn [getType pointee].
  destruct (fillSlice (TSlice elem) args) as [s|err]; [left|right]; eauto.
Qed.

(** X19: a destination that is not a pointer to a struct, a slice or a
    map with string keys is rejected before any token is read: [parse]
    returns an error and the destination as it was on every command line,
    also on those on which the tokenizer never returns. *)
Theorem parse_rejects_destination order data :
  match data with
  | ToStruct _ | ToSlice _ _ | ToMap TString _ _ => False
  | ToOther (TStruct | TSlice _ | TMap _ _) => False
  | _ => True
  end ->
  exists err, forall args, parse order data args = Some (data, Some err).
Proof.
  unfold parse. destruct data as [typ|sv|elem old|key elem v|typ]; try done.
  - intros _. by eexists.
  - destruct key; try done; intros _; by eexists.
  - destruct typ; try done; intros _; by eexists.
Qed.

End Destinations.

(** ** From the command line to the field *)

Section FlagToField.
Context `{StdLib}.

Lemma rawArgsMap_one_flag (a s : string) :
  isMunchingFlag a = true -> HasPrefix s "--" = false ->
  rawArgsMap [a; s] = Some {[flagKey a := [s]]}.
Proof.
  intros Ha Hs. unfold rawArgsMap. rewrite rawArgsMap_loop_cons.
  destruct (rawArgsMap_loop_munching a [s] ∅ Ha) as [-> ->].
  cbn [munchArgs]. rewrite Hs. cbn. by rewrite appendVals_empty.
Qed.

Lemma isMunchingFlag_long (k : string) : isMunchingFlag ("--" +:+ k) = true.
Proof. unfold isMunchingFlag. by rewrite HasPrefix_append. Qed.

Lemma flagKey_long (k : string) : flagKey ("--" +:+ k) = k.
Proof.
  unfold flagKey. rewrite HasPrefix_append.
  change 2 with (String.length "--"). apply slice_from_append.
Qed.

(** X20: a struct with one exported field of type [string] or [*string]:
    the command line made of the field's long flag, [--] and the lowercased
    name, and one value that does not begin with [--], parses without error
    and leaves that value in the field, whatever the field held and
    whatever its tag. *)
Theorem parseStruct_long_flag_sets_string field fval (s : string) :
  PkgPath field = "" -> Anonymous field = false ->
  Type_ field = TString \/ Type_ field = TPtr TString ->
  HasPrefix s "--" = false ->
  parseStruct [(field, fval)] [("--" +:+ ToLower (Name field)); s]
  = Some ([(field, stored field (VString s))], None).
Proof.
  intros Hpkg Hanon Htype Hs. unfold parseStruct.
  rewrite rawArgsMap_one_flag, flagKey_long
    by (done || apply isMunchingFlag_long).
  cbn [parseFields].
  rewrite (parseField_found _ _ _ [s]) by
    (done || (unfold lookupFlag; by rewrite lookup_singleton_eq)).
  unfold stored. by destruct Htype as [-> | ->].
Qed.

End FlagToField.

(** ** Usage *)

Section UsageProperties.
Context `{Printer}.

Lemma usageFields_exported w (v : list (StructField * Value)) :
  usageFields w v
  = usageFields w (filter (fun fx => PkgPath fx.1 = "") v).
Proof.
  revert w. induction v as [|[field fieldVal] v IH]; intros w; [done|].
  cbn [usageFields]. destruct (String.eqb_spec (PkgPath field) "") as [Hp|Hp].
  - rewrite filter_cons_True by done. cbn [usageFields].
    rewrite (proj2 (String.eqb_eq _ _) Hp).
    destruct (usageForField w field fieldVal) as [w' [e|]]; [done | apply IH].
  - rewrite filter_cons_False by done. apply IH.
Qed.

(** X21: the unexported fields of a struct do not show in its usage:
    [Usage] writes the same text and returns the same result as on the
    struct without them.  (Embedded fields that are exported do show.) *)
Theorem Usage_exported_fields_only w (v : list (StructField * Value)) :
  Usage w (UStruct v)
  = Usage w (UStruct (filter (fun fx => PkgPath fx.1 = "") v)).
Proof.
  unfold Usage. destruct (Write w _) as [w' [e|]]; [done|].
  by rewrite usageFields_exported.
Qed.

Lemma written_trans_gen w w1 e1 :
  written w w1 e1 -> e1 = None ->
  forall w2 err, written w1 w2 err -> written w w2 err.
Proof.
  induction 1 as [w|w s w1' w' e Hw _ IH|w s w' e Hw]; intros He w2 err H2.
  - done.
  - eapply written_more; [done | by apply IH].
  - done.
Qed.

Lemma written_trans w w1 w2 err :
  written w w1 None -> written w1 w2 err -> written w w2 err.
Proof. intros H1 H2. by eapply written_trans_gen. Qed.

Lemma written_once w s w' err :
  Write w s = (w', err) -> written w w' err.
Proof.
  destruct err as [e|]; intros Hw.
  - by eapply written_failed.
  - eapply written_more; [done | constructor].
Qed.

Lemma usageForField_written w field fieldVal w' err :
  usageForField w field fieldVal = (w', err) -> written w w' err.
Proof.
  unfold usageForField.
  set (first := if negb _ then _ else _).
  destruct first as [w1 [e|]] eqn:Hfirst; subst first.
  - intros [= <- <-].
    destruct (negb _); by eapply written_failed.
  - assert (written w w1 None) as H1.
    { destruct (negb _); by eapply written_once. }
    intros Hrest. eapply written_trans; [exact H1|].
    destruct (Type_ field); by eapply written_once.
Qed.

Lemma usageFields_written w (v : StructValue) w' err :
  usageFields w v = (w', err) -> written w w' err.
Proof.
  revert w. induction v as [|[field fieldVal] v IH]; intros w.
  - intros [= <- <-]. constructor.
  - cbn [usageFields]. destruct (String.eqb (PkgPath field) ""); [|apply IH].
    destruct (usageForField w field fieldVal) as [w1 [e|]] eqn:Hf.
    + intros [= <- <-]. by eapply usageForField_written.
    + intros Hrest. eapply written_trans.
      * by eapply usageForField_written.
      * by apply IH.
Qed.

(** X22: [Usage] stops writing at the first write that fails and returns
    the error of that write: what it leaves is the writer after a series of
    writes of which only the last can have failed, and the error it returns
    is the error of that last write, or none.  On a value that is not a
    struct it writes nothing. *)
Theorem Usage_stops_at_write_error w strukt w' err :
  Usage w strukt = (w', err) ->
  match strukt, err with
  | UOther typ, _ => w' = w /\ err = Some (ErrUsageKind typ)
  | UStruct _, Some (ErrUsageKind _) => False
  | UStruct _, Some (ErrWrite e) => written w w' (Some e)
  | UStruct _, None => written w w' None
  end.
Proof.
  unfold Usage. destruct strukt as [v|typ]; [|by intros [= <- <-]].
  destruct (Write w _) as [w1 [e|]] eqn:Hhead.
  - intros [= <- <-]. by eapply written_failed.
  - destruct (usageFields w1 v) as [w2 e] eqn:Hfields.
    apply usageFields_written in Hfields.
    pose proof (written_once _ _ _ _ Hhead) as H1.
    intros [= <- <-].
    destruct e as [e|]; cbn; by eapply written_trans.
Qed.

End UsageProperties.

(** [TestUsage]: the text for the struct [UsageTest]. *)
Example Usage_test :
  Usage ""
    (UStruct [(Salad_field, VString ""); (Pie_field, VInt 0);
              (Nachos_field, VPtr None)])
  = ("usage:" +:+ newline
     +:+ " -s," +:+ tab +:+ "--salad" +:+ tab +:+ "(default: " +:+ quote
     +:+ quote +:+ ")" +:+ tab +:+ "type of salad to eat" +:+ newline
     +:+ " -p," +:+ tab +:+ "--pie" +:+ tab +:+ "(default: 0)" +:+ tab
     +:+ "number of pies to eat" +:+ newline
     +:+ " " +:+ tab +:+ "--nachos" +:+ tab +:+ tab +:+ "nacho quotient"
     +:+ newline,
     None)
  /\ Usage "" (UOther TInt) = ("", Some (ErrUsageKind TInt)).
Proof. split; reflexivity. Qed.

(** ** The additional properties at work *)

Lemma fillSlice_length_witness :
  exists xs, fillSlice (TSlice TInt) ["5"; "10"] = inl (VSlice xs)
             /\ length xs = 2.
Proof.
  assert (fillSlice (TSlice TInt) ["5"; "10"]
          = inl (VSlice [VInt 5; VInt 10])) as Hrun by reflexivity.
  destruct (fillSlice_length (TSlice TInt) ["5"; "10"]
              (VSlice [VInt 5; VInt 10]) Hrun) as (xs & Hxs & Hlen).
  exists xs. split; [by rewrite <- Hxs | exact Hlen].
Defined.

Lemma fillSlice_int_first_error_witness :
  fillSlice (TSlice TInt) ["5"; "--bar"; "x"]
  = inr (ErrWrap (ErrNum Decimal.Syntax)).
Proof.
  apply (fillSlice_int_first_error TInt ["5"; "--bar"; "x"]).
  - apply elem_of_cons. by left.
  - exists ["5"], "--bar", ["x"], Decimal.Syntax.
    split_and!; [done | | done | done].
    constructor; [by exists 5%Z | constructor].
Defined.

Lemma parseStruct_first_error_witness :
  exists rawData before field fval after before' fval',
    rawArgsMap ["--string"; "x"; "--int8"; "300"] = Some rawData
    /\ [(String_field, VString "d"); (Int8_field, VInt 7);
        (Bool_field, VBool false)]
       = before ++ (field, fval) :: after
    /\ parseFields rawData before = (before', None)
    /\ parseField rawData field fval
       = (fval', Some (ErrWrap (ErrNum Decimal.Range)))
    /\ [(String_field, VString "x"); (Int8_field, VInt 7);
        (Bool_field, VBool false)]
       = before' ++ (field, fval') :: after.
Proof.
  apply (parseStruct_first_error
           [(String_field, VString "d"); (Int8_field, VInt 7);
            (Bool_field, VBool false)]
           ["--string"; "x"; "--int8"; "300"]).
  reflexivity.
Defined.

Lemma parseStruct_skips_unexported_witness :
  [(String_field, VString "x"); (unexported_field, VInt 3)] !! 1
  = Some (unexported_field, VInt 3).
Proof.
  apply (parseStruct_skips_unexported
           [(String_field, VString "d"); (unexported_field, VInt 3)]
           ["--string"; "x"; "--unexported"; "9"]
           [(String_field, VString "x"); (unexported_field, VInt 3)]
           None 1 unexported_field (VInt 3)).
  - reflexivity.
  - reflexivity.
  - left. discriminate.
Defined.

Lemma parseField_failure_keeps_value_witness :
  parseField {["int8" := ["300"]]} Int8_field (VInt 7)
  = (VInt 7, Some (ErrWrap (ErrNum Decimal.Range))).
Proof.
  assert (parseField {["int8" := ["300"]]} Int8_field (VInt 7)
          = (VInt 7, Some (ErrWrap (ErrNum Decimal.Range)))) as Hrun
    by reflexivity.
  pose proof (parseField_failure_keeps_value {["int8" := ["300"]]} Int8_field
                (VInt 7) (VInt 7) (ErrWrap (ErrNum Decimal.Range))
                ltac:(discriminate) Hrun) as Hsame.
  exact Hrun.
Defined.

Lemma parseStruct_idempotent_witness :
  parseStruct [(Stringptr_field, VPtr (Some (VString "x")));
               (Bool_field, VBool true)]
    ["-b"; "--stringptr"; "x"]
  = Some ([(Stringptr_field, VPtr (Some (VString "x")));
           (Bool_field, VBool true)], None).
Proof.
  apply (parseStruct_idempotent
           [(Stringptr_field, VPtr None); (Bool_field, VBool false)]).
  reflexivity.
Defined.

Lemma parseField_bool_only_sets_witness :
  VBool true = VBool false \/ VBool true = stored Bool_field (VBool true).
Proof.
  apply (parseField_bool_only_sets {["b" := []]} Bool_field
           (VBool false) (VBool true)); [by left | reflexivity].
Defined.

Lemma parseMap_string_success_witness :
  parseMap listOrder (TMap TString TString) {["old" := VString "kept"]}
    ["--foo"; "foo"; "--asdf"]
  = Some ((firstValue <$> {["foo" := ["foo"]; "asdf" := []]})
            ∪ {["old" := VString "kept"]}, None).
Proof.
  destruct (parseMap_string_success listOrder TString
              {["old" := VString "kept"]} ["--foo"; "foo"; "--asdf"]
              {["foo" := ["foo"]; "asdf" := []]}
              listOrder_range_order ltac:(by vm_compute)) as [_ Hok].
  apply Hok. apply map_Forall_insert_2; [simpl; lia|].
  apply map_Forall_singleton. simpl. lia.
Defined.

Lemma parse_map_value_type_witness :
  parse listOrder (ToMap TString TInt ∅) ["--foo"; "5"]
  = Some (ToMap TString TInt ∅, Some (ErrInvalidMap (TMap TString TInt) TInt))
  /\ parse listOrder (ToMap TString TInt ∅) ["foo"] = None.
Proof.
  split.
  - rewrite (parse_map_value_type listOrder TInt ∅ ["--foo"; "5"])
      by discriminate.
    reflexivity.
  - rewrite (parse_map_value_type listOrder TInt ∅ ["foo"]) by discriminate.
    reflexivity.
Defined.

Lemma parse_rejects_destination_witness :
  exists err, forall args,
    parse listOrder (ToMap TInt TInt ∅) args
    = Some (ToMap TInt TInt ∅, Some err).
Proof. apply (parse_rejects_destination listOrder (ToMap TInt TInt ∅) I). Defined.

Lemma parseStruct_long_flag_sets_string_witness :
  parseStruct [(Stringptr_field, VPtr None)] ["--stringptr"; "-x"]
  = Some ([(Stringptr_field, VPtr (Some (VString "-x")))], None).
Proof.
  exact (parseStruct_long_flag_sets_string Stringptr_field (VPtr None) "-x"
           eq_refl eq_refl (or_intror eq_refl) eq_refl).
Defined.

Lemma Usage_stops_at_write_error_witness :
  @written decimalLib bufferPrinter ""
    (@Usage decimalLib bufferPrinter "" (UStruct [(Pie_field, VInt 0)])).1
    None.
Proof.
  apply (@Usage_stops_at_write_error decimalLib bufferPrinter ""
           (UStruct [(Pie_field, VInt 0)])
           (@Usage decimalLib bufferPrinter ""
              (UStruct [(Pie_field, VInt 0)])).1 None).
  reflexivity.
Defined.
